(** * mtracker: artist resolution, cache and release listing

    A shallow embedding of [tracker.py].  Python strings are byte strings
    (the UTF-8 encoding of the text), dictionaries are insertion-ordered
    association lists, and every effect of the script (console output, log
    records, sleeps, HTTP requests, the cache file) is threaded through an
    explicit world. *)

From Stdlib Require Import ZArith String Ascii DecimalString Sorted Permutation.
From stdpp Require Import gmap strings list.

Local Open Scope string_scope.

(** ** Strings *)

Module PyStr.

(** Bytes 128 to 191 continue a character of a UTF-8 text. *)
Definition is_continuation (c : ascii) : bool :=
  (N.leb 128 (N_of_ascii c) && N.leb (N_of_ascii c) 191)%bool.

(** [len(s)]: the number of characters of the text whose UTF-8 encoding
    is [s], that is, of the bytes that do not continue a character. *)
Fixpoint len (s : string) : nat :=
  match s with
  | EmptyString => O
  | String c s' => if is_continuation c then len s' else S (len s')
  end.

Fixpoint spaces (n : nat) : string :=
  match n with
  | O => ""
  | S n' => String " " (spaces n')
  end.

(** [str.ljust(width)]: pad on the right with spaces up to [width]
    characters, never truncate. *)
Definition ljust (width : nat) (s : string) : string :=
  s +:+ spaces (width - len s).

(** [str(v)] of a string or of [None], as [str.format] and [%s] take it. *)
Definition str (v : option string) : string :=
  match v with
  | Some s => s
  | None => "None"
  end.

(** ["{:d}".format(z)] *)
Definition format_d (z : Z) : string := NilZero.string_of_int (Z.to_int z).

(** [urllib.parse.quote_plus]: the bytes in [_ALWAYS_SAFE] are kept, a
    space becomes [+], anything else is percent-encoded with two upper-case
    hexadecimal digits. *)
Definition in_range (lo hi : N) (c : ascii) : bool :=
  (N.leb lo (N_of_ascii c) && N.leb (N_of_ascii c) hi)%bool.

Definition always_safe (c : ascii) : bool :=
  (in_range 65 90 c || in_range 97 122 c || in_range 48 57 c
   || Ascii.eqb c "_" || Ascii.eqb c "." || Ascii.eqb c "-" || Ascii.eqb c "~")%bool.

Definition hex_digit (n : N) : ascii :=
  match String.get (N.to_nat n) "0123456789ABCDEF" with
  | Some c => c
  | None => "0"%char
  end.

Definition quote_byte (c : ascii) : string :=
  if always_safe c then String c ""
  else if Ascii.eqb c " " then "+"
  else String "%" (String (hex_digit (N.div (N_of_ascii c) 16))
                     (String (hex_digit (N.modulo (N_of_ascii c) 16)) "")).

Fixpoint quote_plus (s : string) : string :=
  match s with
  | EmptyString => ""
  | String c s' => quote_byte c +:+ quote_plus s'
  end.

(** The inverse direction, used only to show that [quote_plus] loses
    nothing. *)
Definition hex_value (c : ascii) : N :=
  if in_range 48 57 c then (N_of_ascii c - 48)%N
  else if in_range 65 70 c then (N_of_ascii c - 55)%N
  else 0%N.

Fixpoint unquote_plus (s : string) : string :=
  match s with
  | EmptyString => ""
  | String c s' =>
      if Ascii.eqb c "+" then String " " (unquote_plus s')
      else if Ascii.eqb c "%" then
        match s' with
        | String h (String l s'') =>
            String (ascii_of_N (16 * hex_value h + hex_value l)%N) (unquote_plus s'')
        | _ => String c (unquote_plus s')
        end
      else String c (unquote_plus s')
  end.

End PyStr.

(** ** Data model *)

(** One element of the ['artists'] array of a search response; the
    ['disambiguation'] key is optional. *)
Record artist := {
  a_name : string;
  a_score : Z;
  a_id : string;
  a_disambiguation : option string
}.

(** An artist object after [search_artist] has stored its ['dispname']. *)
Record candidate := {
  c_artist : artist;
  dispname : string
}.

(** One element of ['release-groups'] as the catalog sends it. *)
Record release_group := {
  first_release_date : string;
  title : string
}.

(** The artist document of the detail endpoint. *)
Record artist_page := {
  ap_name : string;
  ap_release_groups : list release_group
}.

(** What is left of the artist document once ['release-groups'] has been
    deleted from it. *)
Record artist_info := { ai_name : string }.

(** A release group with its ['artist'] back-reference. *)
Record release := {
  r_group : release_group;
  r_artist : artist_info
}.

(** The working set [kvs]: a Python dict from artist names to an
    identifier or [None], in insertion order. *)
Definition dict := list (string * option string).

Fixpoint dict_get (k : string) (d : dict) : option (option string) :=
  match d with
  | [] => None
  | (k', v) :: d' => if String.eqb k k' then Some v else dict_get k d'
  end.

(** [d[k] = v]: an existing key keeps its position, a new one goes last. *)
Fixpoint dict_set (k : string) (v : option string) (d : dict) : dict :=
  match d with
  | [] => [(k, v)]
  | (k', v') :: d' =>
      if String.eqb k k' then (k', v) :: d' else (k', v') :: dict_set k v d'
  end.

(** [d.update(other)] *)
Definition dict_update (d other : dict) : dict :=
  fold_left (fun acc kv => dict_set (fst kv) (snd kv) acc) other d.

Definition dict_keys (d : dict) : list string := map fst d.
Definition dict_values (d : dict) : list (option string) := map snd d.

(** Truth value of a dict value: [None] and the empty string are false. *)
Definition truthy (v : option string) : bool :=
  match v with
  | Some s => negb (String.eqb s "")
  | None => false
  end.

(** What [open] finds at a cache path: a file holding a flat mapping, a
    file holding text that the JSON decoder rejects, or no directory to
    hold a file.  A path the file system does not mention has its
    directory, but no file yet.  Permissions are not part of the model:
    a file that exists can be read, and a file whose directory exists can
    be written. *)
Inductive file :=
| Mapping (d : dict)
| Malformed
| NoDirectory.

(** ** Effects *)

Inductive event :=
| Stdout (line : string)
| LogInfo (msg : string)
| LogWarning (msg : string)
| Sleep (seconds : Z)
| HttpGet (uri : string)
| FileWrite (path : string) (content : dict).

Record response (B : Type) := {
  status_code : Z;
  content : B
}.
Arguments status_code {B} _.
Arguments content {B} _.

(** The remote catalog: what the [n]-th request of the run gets back when
    it asks for [uri].  The body of an answer is the parsed document, with
    the keys the script reads; a search document may lack the ['artists']
    key. *)
Record catalog := {
  search_endpoint : nat -> string -> response (option (list artist));
  artist_endpoint : nat -> string -> response artist_page
}.

Record world := {
  tick : nat;
  fs : gmap string file;
  trace : list event
}.

Definition emit (e : event) (w : world) : world :=
  {| tick := tick w; fs := fs w; trace := trace w ++ [e] |}.

Definition next_tick (w : world) : world :=
  {| tick := S (tick w); fs := fs w; trace := trace w |}.

Definition write_file (path : string) (d : dict) (w : world) : world :=
  {| tick := tick w; fs := <[path := Mapping d]> (fs w);
     trace := trace w ++ [FileWrite path d] |}.

Inductive exn :=
| AttributeError (attr : string)
| FileNotFoundError
| JSONDecodeError.

Inductive result (A : Type) :=
| Done (a : A)
| Raise (e : exn).
Arguments Done {A} _.
Arguments Raise {A} _.

(** A computation either runs out of fuel ([None]: a retry loop that is
    still waiting), or ends normally or by an exception in a new world. *)
Definition M (A : Type) : Type := world -> option (result A * world).

Definition ret {A} (a : A) : M A := fun w => Some (Done a, w).

Definition raise {A} (e : exn) : M A := fun w => Some (Raise e, w).

Definition bind {A B} (m : M A) (f : A -> M B) : M B :=
  fun w =>
    match m w with
    | None => None
    | Some (Raise e, w') => Some (Raise e, w')
    | Some (Done a, w') => f a w'
    end.

Definition act (f : world -> world) : M unit := fun w => Some (Done tt, f w).

Notation "x <- m ;; k" := (bind m (fun x => k))
  (at level 100, m at next level, right associativity).
Notation "m ;;; k" := (bind m (fun _ => k))
  (at level 100, right associativity).

Definition print (line : string) : M unit := act (emit (Stdout line)).
Definition logging_info (msg : string) : M unit := act (emit (LogInfo msg)).
Definition logging_warning (msg : string) : M unit := act (emit (LogWarning msg)).
Definition time_sleep (s : Z) : M unit := act (emit (Sleep s)).

(** [try: body except E: pass], for a body that yields the handler's
    default when [E] is caught. *)
Definition try_except {A} (body : M A) (catches : exn -> bool) (handler : M A) : M A :=
  fun w =>
    match body w with
    | Some (Raise e, w') => if catches e then handler w' else Some (Raise e, w')
    | r => r
    end.

Definition is_FileNotFoundError (e : exn) : bool :=
  match e with
  | FileNotFoundError => true
  | _ => false
  end.

(** [open(path, "r")]: fails when the file, or its directory, is
    missing. *)
Definition open_read (path : string) : M file :=
  fun w =>
    match fs w !! path with
    | Some NoDirectory | None => Some (Raise FileNotFoundError, w)
    | Some f => Some (Done f, w)
    end.

(** [json.load(f)] on an open file. *)
Definition json_load (f : file) : M dict :=
  match f with
  | Mapping j => ret j
  | _ => raise JSONDecodeError
  end.

(** [open(path, "w")] followed by [json.dump(kvs, f, indent=4)]: the file
    is created or replaced, unless its directory is missing, in which case
    [open] fails and nothing is written. *)
Definition json_dump (path : string) (kvs : dict) : M unit :=
  fun w =>
    match fs w !! path with
    | Some NoDirectory => Some (Raise FileNotFoundError, w)
    | _ => Some (Done tt, write_file path kvs w)
    end.

(** ** The program *)

Section Tracker.

Variable cat : catalog.

Definition search_uri (artist_name : string) : string :=
  "https://musicbrainz.org/ws/2/artist?query=" +:+ PyStr.quote_plus artist_name
    +:+ "&fmt=json".

Definition artist_uri (art_id : option string) : string :=
  "http://musicbrainz.org/ws/2/artist/" +:+ PyStr.str art_id
    +:+ "?inc=release-groups&fmt=json".

Definition requests_get {B} (endpoint : nat -> string -> response B)
    (uri : string) : M (response B) :=
  fun w => Some (Done (endpoint (tick w) uri), next_tick (emit (HttpGet uri) w)).

(** The [while True] loop of [search_artist]; [fuel] bounds the number of
    attempts. *)
Fixpoint search_page (fuel : nat) (artist_name : string)
    : M (response (option (list artist))) :=
  match fuel with
  | O => fun _ => None
  | S fuel' =>
      logging_info ("Querying MusicBrainz for artist=" +:+ artist_name) ;;;
      page <- requests_get (search_endpoint cat) (search_uri artist_name) ;;
      if (status_code page =? 200)%Z then ret page
      else
        logging_warning ("MusicBrainz returned status="
                         +:+ PyStr.format_d (status_code page)) ;;;
        time_sleep 5%Z ;;;
        search_page fuel' artist_name
  end.

Definition is_match (artist_name : string) (a : artist) : bool :=
  (String.eqb (a_name a) artist_name || (a_score a =? 100)%Z)%bool.

Definition with_dispname (a : artist) : candidate :=
  match a_disambiguation a with
  | Some note =>
      if truthy (Some note)
      then {| c_artist := a; dispname := a_name a +:+ " (" +:+ note +:+ ")" |}
      else {| c_artist := a; dispname := a_name a |}
  | None => {| c_artist := a; dispname := a_name a |}
  end.

(** The [for artist in ...] loop, appending to [matches]. *)
Fixpoint collect_matches (artist_name : string) (artists : list artist)
    (matches : list candidate) : list candidate :=
  match artists with
  | [] => matches
  | a :: rest =>
      if is_match artist_name a
      then collect_matches artist_name rest (matches ++ [with_dispname a])
      else collect_matches artist_name rest matches
  end.

Definition search_artist (fuel : nat) (artist_name : string) : M (list candidate) :=
  page <- search_page fuel artist_name ;;
  ret (collect_matches artist_name (default [] (content page)) []).

(** The [while True] loop of [get_releases_artist]. *)
Fixpoint artist_page_of (fuel : nat) (art_id : option string)
    : M (response artist_page) :=
  match fuel with
  | O => fun _ => None
  | S fuel' =>
      logging_info ("Querying MusicBrainz for artist_id:" +:+ PyStr.str art_id) ;;;
      page <- requests_get (artist_endpoint cat) (artist_uri art_id) ;;
      if (status_code page =? 200)%Z then ret page
      else
        logging_warning ("MusicBrainz returned status="
                         +:+ PyStr.format_d (status_code page)) ;;;
        time_sleep 5%Z ;;;
        artist_page_of fuel' art_id
  end.

Definition get_releases_artist (fuel : nat) (art_id : option string)
    : M (list release) :=
  page <- artist_page_of fuel art_id ;;
  let j := content page in
  let releases := ap_release_groups j in
  let j' := {| ai_name := ap_name j |} in
  ret (map (fun rg => {| r_group := rg; r_artist := j' |}) releases).

(** [sorted(..., key=lambda r: r['first-release-date'], reverse=True)]:
    descending by key, equal keys staying in their original order. *)
Definition date_of (r : release) : string := first_release_date (r_group r).

Fixpoint insert_desc (x : release) (l : list release) : list release :=
  match l with
  | [] => [x]
  | y :: l' =>
      if String.ltb (date_of x) (date_of y) then y :: insert_desc x l'
      else x :: y :: l'
  end.

Definition sorted_desc (l : list release) : list release :=
  foldr insert_desc [] l.

Fixpoint fetch_all (fuel : nat) (artist_ids : list (option string))
    (all_releases : list release) : M (list release) :=
  match artist_ids with
  | [] => ret all_releases
  | art_id :: rest =>
      releases <- get_releases_artist fuel art_id ;;
      fetch_all fuel rest (all_releases ++ releases)
  end.

Definition get_releases (fuel : nat) (artist_ids : list (option string))
    : M (list release) :=
  all_releases <- fetch_all fuel artist_ids [] ;;
  ret (sorted_desc all_releases).

Definition release_line (r : release) : string :=
  PyStr.ljust 10 (date_of r) +:+ " " +:+ ai_name (r_artist r) +:+ " - "
    +:+ title (r_group r).

Fixpoint print_releases (releases : list release) : M unit :=
  match releases with
  | [] => ret tt
  | r :: rest => print (release_line r) ;;; print_releases rest
  end.

Definition match_line (m : candidate) : string :=
  dispname m +:+ " (" +:+ PyStr.format_d (a_score (c_artist m)) +:+ "%) "
    +:+ a_id (c_artist m).

Fixpoint print_matches (matches : list candidate) : M unit :=
  match matches with
  | [] => ret tt
  | m :: rest => print (match_line m) ;;; print_matches rest
  end.

(** The loop of [lookup] over [kvs.items()].  Only the value of the
    current key is ever assigned, so the pairs still to be visited are
    those of the dict the loop started from. *)
Fixpoint lookup_items (fuel : nat) (items : list (string * option string))
    (kvs : dict) (changed failure : bool) : M (dict * bool * bool) :=
  match items with
  | [] => ret (kvs, changed, failure)
  | (k, v) :: rest =>
      if truthy v then lookup_items fuel rest kvs changed failure
      else
        print ("Lookup on " +:+ k) ;;;
        matches <- search_artist fuel k ;;
        match matches with
        | [m] =>
            let kvs := dict_set k (Some (a_id (c_artist m))) kvs in
            print "Found Artist match with high confidence:" ;;;
            print (match_line m) ;;;
            lookup_items fuel rest kvs true failure
        | _ =>
            print "Found multiple candidates, please select manually:" ;;;
            print_matches matches ;;;
            lookup_items fuel rest kvs changed true
        end
  end.

(** [lookup] mutates [kvs] in place; the dict it leaves behind is returned
    next to the two flags. *)
Definition lookup (fuel : nat) (kvs : dict) : M (dict * bool * bool) :=
  lookup_items fuel kvs kvs false false.

(** The parsed command line. [--ids] and [--artists] take one or more
    values when given. *)
Record args := {
  ids : option (list string);
  artists : option (list string);
  json : option string;
  verbose : bool
}.

Definition list_truthy {A} (l : option (list A)) : bool :=
  match l with
  | Some (_ :: _) => true
  | _ => false
  end.

Definition dict_truthy (d : dict) : bool :=
  match d with
  | [] => false
  | _ => true
  end.

(** [{k: None for k in names}] *)
Definition none_for (names : list string) : dict :=
  fold_left (fun acc k => dict_set k None acc) names [].

(** Lines 104-109: the empty working set, seeded with the names given. *)
Definition seed (a : args) : dict :=
  if list_truthy (artists a)
  then dict_update [] (none_for (default [] (artists a)))
  else [].

(** Lines 111-117: merge the cache file, if there is one. *)
Definition load_cache (a : args) (kvs : dict) : M dict :=
  if truthy (json a)
  then
    try_except
      (f <- open_read (PyStr.str (json a)) ;;
       j <- json_load f ;;
       ret (dict_update kvs j))
      is_FileNotFoundError
      (ret kvs)
  else ret kvs.

(** Lines 119-135. *)
Definition run (fuel : nat) (a : args) (kvs : dict) : M unit :=
  r <- (if dict_truthy kvs then lookup fuel kvs else ret (kvs, false, false)) ;;
  let '(kvs, rewrite_, fail) := r in
  (if (dict_truthy kvs && rewrite_ && truthy (json a))%bool
   then json_dump (PyStr.str (json a)) kvs
   else ret tt) ;;;
  if fail then print "Couldn't look up all artists, exiting."
  else
    let artist_ids := dict_values kvs in
    artist_ids <- (if list_truthy (ids a)
                   then raise (AttributeError "artist_ids")
                   else ret artist_ids) ;;
    releases <- get_releases fuel artist_ids ;;
    print_releases releases.

(** [logging.basicConfig] only selects the level, and records of level
    INFO and WARNING pass at either, so [verbose] changes nothing here. *)
Definition main (fuel : nat) (a : args) : M unit :=
  kvs <- load_cache a (seed a) ;;
  run fuel a kvs.

End Tracker.

(** ** Vocabulary of the statements *)

(** The events a run added to the trace. *)
Definition new_events (w w' : world) : list event :=
  drop (length (trace w)) (trace w').

(** [steps P w w']: from [w] to [w'] the file system was left alone and
    only events satisfying [P] were emitted. *)
Definition steps (P : event -> Prop) (w w' : world) : Prop :=
  fs w' = fs w /\ exists evs, trace w' = (trace w ++ evs)%list /\ Forall P evs.

(** Events of name resolution: requests go to the search address of one
    of [names], and nothing is written. *)
Definition lookup_event (names : list string) (e : event) : Prop :=
  match e with
  | HttpGet u => exists k, In k names /\ u = search_uri k
  | FileWrite _ _ => False
  | _ => True
  end.

(** Events of release fetching and printing: requests go to artist
    addresses only. *)
Definition fetch_event (e : event) : Prop :=
  match e with
  | HttpGet u => exists art_id, u = artist_uri art_id
  | FileWrite _ _ => False
  | _ => True
  end.

(** A catalog endpoint answers within [N] attempts, whenever asked. *)
Definition responsive {B} (endpoint : nat -> string -> response B) (N : nat) : Prop :=
  forall t uri, exists n, n < N /\ status_code (endpoint (t + n) uri) = 200%Z.

(** The documents an endpoint serves do not change during the run. *)
Definition stable {B} (endpoint : nat -> string -> response B)
    (db : string -> B) : Prop :=
  forall t uri, status_code (endpoint t uri) = 200%Z -> content (endpoint t uri) = db uri.

(** Several events in a row. *)
Definition emit_all (evs : list event) (w : world) : world :=
  {| tick := tick w; fs := fs w; trace := trace w ++ evs |}.

(** The releases of one artist document, each pointing back to it. *)
Definition releases_of_page (j : artist_page) : list release :=
  map (fun rg => {| r_group := rg; r_artist := {| ai_name := ap_name j |} |})
    (ap_release_groups j).

(** The names [lookup] has to resolve: the keys whose value is false. *)
Definition falsy_keys (items : dict) : list string :=
  map fst (List.filter (fun kv => negb (truthy (snd kv))) items).

(** What the search for [name] keeps, when the catalog serves [db]. *)
Definition candidates (db : string -> option (list artist)) (name : string)
    : list candidate :=
  map with_dispname (List.filter (is_match name) (default [] (db (search_uri name)))).

(** The outcome of [lookup_items] against a catalog that serves [db]. *)
Fixpoint resolve_items (db : string -> option (list artist)) (items kvs : dict)
    (changed failure : bool) : dict * bool * bool :=
  match items with
  | [] => (kvs, changed, failure)
  | (k, v) :: rest =>
      if truthy v then resolve_items db rest kvs changed failure
      else
        match candidates db k with
        | [m] => resolve_items db rest (dict_set k (Some (a_id (c_artist m))) kvs)
                   true failure
        | _ => resolve_items db rest kvs changed true
        end
  end.

Section Resolution.

Variable cat : catalog.

(** The resolution phase of [run]: [lookup] when the working set is not
    empty. *)
Definition resolution (fuel : nat) (kvs : dict) : M (dict * bool * bool) :=
  if dict_truthy kvs then lookup cat fuel kvs else ret (kvs, false, false).

End Resolution.

(** What line 127 prints. *)
Definition failure_message : string := "Couldn't look up all artists, exiting.".

(** The directory of [path] is missing: no file can be opened there,
    neither for reading nor for writing. *)
Definition no_directory (w : world) (path : string) : bool :=
  match fs w !! path with
  | Some NoDirectory => true
  | _ => false
  end.

(** Line 122 asks for the cache to be written, but line 123 cannot open
    it. *)
Definition blocked (changed : bool) (a : args) (w : world) : bool :=
  (changed && truthy (json a) && no_directory w (PyStr.str (json a)))%bool.

(** Line 122 asks for the cache to be written, and line 123 can open
    it. *)
Definition written (changed : bool) (a : args) (w : world) : bool :=
  (changed && truthy (json a) && negb (no_directory w (PyStr.str (json a))))%bool.

(** [r1] may stand before [r2] in a listing sorted by date, newest first. *)
Definition newer_first (r1 r2 : release) : Prop :=
  String.leb (date_of r2) (date_of r1) = true.

(** The releases dated [d]. *)
Definition same_date (d : string) (r : release) : bool := String.eqb (date_of r) d.

(** The addresses requested in a sequence of events, in order. *)
Definition requested (evs : list event) : list string :=
  flat_map (fun e => match e with HttpGet u => [u] | _ => [] end) evs.

(** The working set [main] hands to resolution: the seeds merged with the
    cache file (empty when loading raised). *)
Definition working_set (a : args) (w : world) : dict :=
  match load_cache a (seed a) w with
  | Some (Done kvs, _) => kvs
  | _ => []
  end.

(** Entries that resolution settles, and entries it fails on, when the
    catalog serves [db]. *)
Definition resolves (db : string -> option (list artist))
    (kv : string * option string) : bool :=
  (negb (truthy (snd kv)) && Nat.eqb (length (candidates db (fst kv))) 1)%bool.

Definition fails (db : string -> option (list artist))
    (kv : string * option string) : bool :=
  (negb (truthy (snd kv)) && negb (Nat.eqb (length (candidates db (fst kv))) 1))%bool.

(** The line as the specification words it: the three fields, each
    separated from the next by " - ". *)
Definition spec_release_line (r : release) : string :=
  PyStr.ljust 10 (first_release_date (r_group r)) +:+ " - "
    +:+ ai_name (r_artist r) +:+ " - " +:+ title (r_group r).

(** ** A small catalog to run the program on *)

Module Demo.

Definition artist_b : artist :=
  {| a_name := "Artist B"; a_score := 100%Z; a_id := "id-b";
     a_disambiguation := Some "UK band" |}.

Definition artist_c : artist :=
  {| a_name := "Artist C"; a_score := 80%Z; a_id := "id-c";
     a_disambiguation := None |}.

Definition twin_1 : artist :=
  {| a_name := "Twin"; a_score := 100%Z; a_id := "id-t1"; a_disambiguation := None |}.

Definition twin_2 : artist :=
  {| a_name := "Twin"; a_score := 97%Z; a_id := "id-t2";
     a_disambiguation := Some "" |}.

Definition search_db (uri : string) : option (list artist) :=
  if String.eqb uri (search_uri "Artist B") then Some [artist_b; artist_c]
  else if String.eqb uri (search_uri "Twin") then Some [twin_1; artist_c; twin_2]
  else None.

Definition artist_db (uri : string) : artist_page :=
  if String.eqb uri (artist_uri (Some "id-b")) then
    {| ap_name := "Artist B";
       ap_release_groups :=
         [ {| first_release_date := "2020-01-01"; title := "First" |};
           {| first_release_date := "1999-05-05"; title := "Early" |};
           {| first_release_date := "2020-06-01"; title := "Second" |} ] |}
  else
    {| ap_name := "Artist A";
       ap_release_groups :=
         [ {| first_release_date := "2020-01-01"; title := "Debut" |};
           {| first_release_date := "2011"; title := "Demo" |} ] |}.

(** The first request of a run is turned away, later ones are served. *)
Definition cat : catalog :=
  {| search_endpoint := fun t uri =>
       {| status_code := if Nat.eqb t 0 then 503%Z else 200%Z;
          content := search_db uri |};
     artist_endpoint := fun t uri =>
       {| status_code := if Nat.eqb t 0 then 503%Z else 200%Z;
          content := artist_db uri |} |}.

Definition start (files : gmap string file) : world :=
  {| tick := 0; fs := files; trace := [] |}.

End Demo.

Definition first_by_artist_b : release :=
  {| r_group := {| first_release_date := "2020-01-01"; title := "First" |};
     r_artist := {| ai_name := "Artist B" |} |}.

Definition cached_args : args :=
  {| ids := None; artists := Some ["Artist A"; "Artist B"]; json := Some "artists.json";
     verbose := false |}.

Definition cached_files : gmap string file :=
  {[ "artists.json" := Mapping [("Artist A", Some "id-123")] ]}.


(** ** Vocabulary of the further properties *)

(** The bytes [quote_plus] lets through: the always-safe ones, [+] for a
    space, and [%] with its two hexadecimal digits. *)
Definition url_safe (c : ascii) : bool :=
  (PyStr.always_safe c || Ascii.eqb c "+" || Ascii.eqb c "%")%bool.

(** What one turned-away attempt of a retry loop leaves in the trace. *)
Definition failed_round (info uri : string) (status : Z) : list event :=
  [ LogInfo info; HttpGet uri;
    LogWarning ("MusicBrainz returned status=" +:+ PyStr.format_d status);
    Sleep 5 ].

(** The trace of a retry loop started at request number [t] that is
    turned away [n] times and then served. *)
Definition retry_events {B} (endpoint : nat -> string -> response B)
    (info uri : string) (t n : nat) : list event :=
  (flat_map (fun i => failed_round info uri (status_code (endpoint (t + i) uri)))
     (seq 0 n)
   ++ [LogInfo info; HttpGet uri])%list.

(** Events of a fetch for [artist_ids]: log records, sleeps, and requests
    for the documents of these artists; nothing printed, nothing written. *)
Definition fetch_only (artist_ids : list (option string)) (e : event) : Prop :=
  match e with
  | HttpGet u => exists i, In i artist_ids /\ u = artist_uri i
  | Stdout _ => False
  | FileWrite _ _ => False
  | _ => True
  end.

(** Every artist the catalog lists has a non-empty identifier. *)
Definition ids_nonempty (db : string -> option (list artist)) : Prop :=
  forall uri a, In a (default [] (db uri)) -> a_id a <> "".

(** What resolution makes of one entry, when the catalog serves [db]. *)
Definition resolve_entry (db : string -> option (list artist))
    (kv : string * option string) : string * option string :=
  if truthy (snd kv) then kv
  else
    match candidates db (fst kv) with
    | [m] => (fst kv, Some (a_id (c_artist m)))
    | _ => kv
    end.

(** A catalog that turns every request away. *)
Definition unavailable : catalog :=
  {| search_endpoint := fun _ _ => {| status_code := 503%Z; content := None |};
     artist_endpoint := fun _ _ =>
       {| status_code := 503%Z;
          content := {| ap_name := ""; ap_release_groups := [] |} |} |}.

(** A working set with a resolved entry, an unresolved one, and one whose
    identifier is the empty string. *)
Definition mixed_working_set : dict :=
  [("Artist A", Some "id-123"); ("Twin", None); ("Artist B", Some "")].

(** A command line whose cache path lies in a directory that does not
    exist. *)
Definition nodir_args : args :=
  {| ids := None; artists := Some ["Artist B"]; json := Some "nodir/artists.json";
     verbose := false |}.


Definition nodir_files : gmap string file :=
  {[ "nodir/artists.json" := NoDirectory ]}.

(** ** Facts about strings *)

Section StringFacts.

#[local] Arguments String.append !_ _ : simpl nomatch.

Lemma append_assoc (s t u : string) : (s +:+ t) +:+ u = s +:+ (t +:+ u).
Proof. induction s as [|c s IH]; simpl; [reflexivity | now rewrite IH]. Qed.

Lemma append_nil_r (s : string) : s +:+ "" = s.
Proof. induction s as [|c s IH]; simpl; [reflexivity | now rewrite IH]. Qed.

Lemma length_append (s t : string) :
  String.length (s +:+ t) = String.length s + String.length t.
Proof. induction s as [|c s IH]; simpl; [reflexivity | now rewrite IH]. Qed.

Lemma append_inv_tail (t s1 s2 : string) : s1 +:+ t = s2 +:+ t -> s1 = s2.
Proof.
  revert s2. induction s1 as [|c s1 IH]; intros [|c' s2] H; simpl in H.
  - reflexivity.
  - apply (f_equal String.length) in H. simpl in H.
    rewrite length_append in H. lia.
  - apply (f_equal String.length) in H. simpl in H.
    rewrite length_append in H. lia.
  - injection H as -> H. f_equal. now apply IH.
Qed.

Lemma unquote_quote_byte (c : ascii) (t : string) :
  PyStr.unquote_plus (PyStr.quote_byte c +:+ t) = String c (PyStr.unquote_plus t).
Proof. destruct c as [[] [] [] [] [] [] [] []]; reflexivity. Qed.

Lemma unquote_quote_plus (s t : string) :
  PyStr.unquote_plus (PyStr.quote_plus s +:+ t) = s +:+ PyStr.unquote_plus t.
Proof.
  induction s as [|c s IH]; [reflexivity |].
  change (PyStr.quote_plus (String c s))
    with (PyStr.quote_byte c +:+ PyStr.quote_plus s).
  rewrite append_assoc, unquote_quote_byte, IH. reflexivity.
Qed.

Lemma quote_plus_inj (s1 s2 : string) :
  PyStr.quote_plus s1 = PyStr.quote_plus s2 -> s1 = s2.
Proof.
  intros H. apply (f_equal (fun q => PyStr.unquote_plus (q +:+ ""))) in H.
  rewrite !unquote_quote_plus in H. simpl in H.
  now rewrite !append_nil_r in H.
Qed.

Lemma search_uri_inj (k1 k2 : string) : search_uri k1 = search_uri k2 -> k1 = k2.
Proof.
  unfold search_uri. intros H.
  apply String.app_inj in H. apply append_inv_tail in H.
  now apply quote_plus_inj.
Qed.

(** The two endpoints never share an address: one is reached over
    [https], the other over [http]. *)
Lemma search_uri_not_artist_uri (k : string) (art_id : option string) :
  search_uri k <> artist_uri art_id.
Proof. unfold search_uri, artist_uri. simpl. discriminate. Qed.

Lemma len_append (s t : string) : PyStr.len (s +:+ t) = PyStr.len s + PyStr.len t.
Proof.
  induction s as [|c s IH]; [reflexivity |].
  simpl. rewrite IH. now destruct (PyStr.is_continuation c).
Qed.

Lemma len_spaces (n : nat) : PyStr.len (PyStr.spaces n) = n.
Proof. induction n as [|n IH]; simpl; [reflexivity | now rewrite IH]. Qed.

Lemma ljust_length (n : nat) (s : string) :
  PyStr.len (PyStr.ljust n s) = Nat.max n (PyStr.len s).
Proof. unfold PyStr.ljust. rewrite len_append, len_spaces. lia. Qed.

(** Padding counts characters: a date of five characters that takes seven
    bytes gets five spaces. *)
Lemma ljust_counts_characters :
  PyStr.len "2020年" = 5 /\ String.length "2020年" = 7 /\
  PyStr.ljust 10 "2020年" = "2020年     ".
Proof. repeat split. Qed.

End StringFacts.

(** ** Facts about dicts *)

Lemma dict_get_set_eq (k : string) (v : option string) (d : dict) :
  dict_get k (dict_set k v d) = Some v.
Proof.
  induction d as [|[k' v'] d IH]; simpl.
  - now rewrite String.eqb_refl.
  - destruct (String.eqb_spec k k') as [->|Hne]; simpl.
    + now rewrite String.eqb_refl.
    + destruct (String.eqb_spec k k'); [contradiction | exact IH].
Qed.

Lemma dict_get_set_ne (k k' : string) (v : option string) (d : dict) :
  k <> k' -> dict_get k (dict_set k' v d) = dict_get k d.
Proof.
  intros Hne. induction d as [|[k0 v0] d IH]; simpl.
  - destruct (String.eqb_spec k k'); [contradiction | reflexivity].
  - destruct (String.eqb_spec k' k0) as [->|Hne0]; simpl.
    + destruct (String.eqb_spec k k0); [contradiction | reflexivity].
    + destruct (String.eqb_spec k k0); [reflexivity | exact IH].
Qed.

Lemma dict_get_None (k : string) (d : dict) :
  dict_get k d = None <-> ~ In k (dict_keys d).
Proof.
  induction d as [|[k' v'] d IH]; simpl; [tauto |].
  destruct (String.eqb_spec k k') as [->|Hne].
  - split; [discriminate | intros H; exfalso; apply H; now left].
  - rewrite IH. split; [intros H [E|I]; [congruence | tauto] | tauto].
Qed.

Lemma dict_keys_set (k : string) (v : option string) (d : dict) :
  dict_keys (dict_set k v d) =
    match dict_get k d with
    | Some _ => dict_keys d
    | None => (dict_keys d ++ [k])%list
    end.
Proof.
  induction d as [|[k' v'] d IH]; simpl; [reflexivity |].
  destruct (String.eqb_spec k k') as [->|Hne]; simpl; [reflexivity |].
  rewrite IH. now destruct (dict_get k d).
Qed.

Lemma dict_set_NoDup (k : string) (v : option string) (d : dict) :
  NoDup (dict_keys d) -> NoDup (dict_keys (dict_set k v d)).
Proof.
  intros Hd. rewrite dict_keys_set.
  destruct (dict_get k d) eqn:E; [exact Hd |].
  apply dict_get_None in E.
  apply NoDup_app. repeat split; [exact Hd | | apply NoDup_singleton].
  intros x Hx Hx'. apply list_elem_of_In in Hx.
  apply list_elem_of_singleton in Hx'. congruence.
Qed.

Lemma dict_update_NoDup (d other : dict) :
  NoDup (dict_keys d) -> NoDup (dict_keys (dict_update d other)).
Proof.
  unfold dict_update. revert d.
  induction other as [|[k v] other IH]; intros d Hd; simpl; [exact Hd |].
  apply IH. now apply dict_set_NoDup.
Qed.

Lemma dict_get_In (k : string) (v : option string) (d : dict) :
  NoDup (dict_keys d) -> In (k, v) d -> dict_get k d = Some v.
Proof.
  induction d as [|[k' v'] d IH]; simpl; [tauto |].
  intros Hnd [E|I].
  - injection E as -> ->. now rewrite String.eqb_refl.
  - apply NoDup_cons in Hnd as [Hnotin Hnd].
    destruct (String.eqb_spec k k') as [->|Hne].
    + exfalso. apply Hnotin. apply list_elem_of_In.
      change k' with (fst (k', v)). now apply in_map.
    + now apply IH.
Qed.

Lemma dict_get_Some_In (k : string) (v : option string) (d : dict) :
  dict_get k d = Some v -> In (k, v) d.
Proof.
  induction d as [|[k' v'] d IH]; simpl; [discriminate |].
  destruct (String.eqb_spec k k') as [->|Hne].
  - intros [= ->]. now left.
  - intros H. right. now apply IH.
Qed.

(** [update]: the last binding of a key in [other] wins; keys that
    [other] does not mention keep their value. *)
Lemma dict_get_update_other (k : string) (d other : dict) :
  ~ In k (dict_keys other) -> dict_get k (dict_update d other) = dict_get k d.
Proof.
  unfold dict_update. revert d.
  induction other as [|[k' v'] other IH]; intros d Hk; simpl; [reflexivity |].
  simpl in Hk. rewrite IH by tauto.
  apply dict_get_set_ne. intros ->. apply Hk. now left.
Qed.

Lemma dict_get_update (k : string) (v : option string) (d other : dict) :
  NoDup (dict_keys other) -> In (k, v) other ->
  dict_get k (dict_update d other) = Some v.
Proof.
  unfold dict_update. revert d.
  induction other as [|[k' v'] other IH]; intros d Hnd Hin; simpl; [destruct Hin |].
  simpl in Hnd. apply NoDup_cons in Hnd as [Hnotin Hnd].
  destruct Hin as [E|I].
  - injection E as -> ->.
    fold (dict_update (dict_set k v d) other).
    rewrite dict_get_update_other.
    + apply dict_get_set_eq.
    + intros HI. apply Hnotin. now apply list_elem_of_In.
  - now apply IH.
Qed.

Lemma dict_update_nil (d : dict) : dict_update d [] = d.
Proof. reflexivity. Qed.

Lemma none_for_NoDup (names : list string) : NoDup (dict_keys (none_for names)).
Proof.
  unfold none_for.
  assert (H : forall acc, NoDup (dict_keys acc) ->
            NoDup (dict_keys (fold_left (fun acc k => dict_set k None acc) names acc))).
  { induction names as [|n names IH]; intros acc Hacc; simpl; [exact Hacc |].
    apply IH. now apply dict_set_NoDup. }
  apply H. simpl. apply NoDup_nil_2.
Qed.

Lemma seed_NoDup (a : args) : NoDup (dict_keys (seed a)).
Proof.
  unfold seed. destruct (list_truthy (artists a)).
  - apply dict_update_NoDup. simpl. apply NoDup_nil_2.
  - simpl. apply NoDup_nil_2.
Qed.

(** ** Reasoning about runs *)

Lemma bind_Some {A B} (m : M A) (f : A -> M B) (w : world) r w' :
  bind m f w = Some (r, w') ->
  (exists e, m w = Some (Raise e, w') /\ r = Raise e) \/
  (exists a w1, m w = Some (Done a, w1) /\ f a w1 = Some (r, w')).
Proof.
  unfold bind. destruct (m w) as [[[a|e] w1]|]; intros H.
  - right. eauto.
  - left. injection H as <- <-. eauto.
  - discriminate.
Qed.

Lemma steps_refl P w : steps P w w.
Proof. split; [reflexivity |]. exists []. now rewrite app_nil_r. Qed.

Lemma steps_trans P w1 w2 w3 : steps P w1 w2 -> steps P w2 w3 -> steps P w1 w3.
Proof.
  intros [F1 (e1 & T1 & P1)] [F2 (e2 & T2 & P2)]. split; [congruence |].
  exists (e1 ++ e2)%list. split.
  - now rewrite T2, T1, app_assoc.
  - now apply Forall_app.
Qed.

Lemma steps_emit (P : event -> Prop) e w : P e -> steps P w (emit e w).
Proof.
  intros He. split; [reflexivity |]. exists [e]. split; [reflexivity |].
  now constructor.
Qed.

Lemma steps_next_tick P w : steps P w (next_tick w).
Proof. split; [reflexivity |]. exists []. simpl. now rewrite app_nil_r. Qed.

Lemma steps_weaken (P Q : event -> Prop) w w' :
  (forall e, P e -> Q e) -> steps P w w' -> steps Q w w'.
Proof.
  intros HPQ [F (evs & T & HP)]. split; [exact F |].
  exists evs. split; [exact T |]. eapply Forall_impl; eauto.
Qed.

Lemma steps_new_events P w w' : steps P w w' -> Forall P (new_events w w').
Proof.
  intros [_ (evs & T & HP)]. unfold new_events.
  now rewrite T, drop_app_length.
Qed.

Lemma lookup_event_mono (ns ns' : list string) (e : event) :
  (forall k, In k ns -> In k ns') -> lookup_event ns e -> lookup_event ns' e.
Proof.
  intros Hsub. destruct e; simpl; auto.
  intros (k & Hk & ->). exists k. auto.
Qed.

Lemma steps_emit_all (P : event -> Prop) evs w :
  Forall P evs -> steps P w (emit_all evs w).
Proof. intros H. split; [reflexivity |]. exists evs. now split. Qed.

Lemma emit_all_nil w : emit_all [] w = w.
Proof. destruct w. unfold emit_all. simpl. now rewrite app_nil_r. Qed.

Lemma emit_all_cons e evs w : emit_all evs (emit e w) = emit_all (e :: evs) w.
Proof. unfold emit_all, emit. simpl. now rewrite <- app_assoc. Qed.

(** Chains of [emit] and [next_tick]. *)
Ltac steps_chain :=
  lazymatch goal with
  | |- steps _ ?w ?w => apply steps_refl
  | |- steps _ ?w (emit ?e ?w0) =>
      apply (steps_trans _ w w0); [steps_chain | apply steps_emit; simpl; auto]
  | |- steps _ ?w (next_tick ?w0) =>
      apply (steps_trans _ w w0); [steps_chain | apply steps_next_tick]
  end.

Ltac run_in H :=
  cbn [bind print logging_info logging_warning time_sleep act requests_get
       ret raise] in H.

Section Runs.

Variable cat : catalog.

Lemma search_page_inv fuel name w r w' :
  search_page cat fuel name w = Some (r, w') ->
  exists t,
    r = Done (search_endpoint cat t (search_uri name)) /\
    status_code (search_endpoint cat t (search_uri name)) = 200%Z /\
    steps (lookup_event [name]) w w'.
Proof.
  revert w r. induction fuel as [|fuel IH]; intros w r H; [discriminate |].
  cbn [search_page] in H. run_in H.
  assert (Hget : lookup_event [name] (HttpGet (search_uri name))).
  { exists name. split; [now left | reflexivity]. }
  destruct (Z.eqb_spec (status_code (search_endpoint cat (tick (emit
    (LogInfo ("Querying MusicBrainz for artist=" +:+ name)) w)) (search_uri name))) 200)
    as [E|E].
  - injection H as <- <-. eexists. split; [reflexivity |]. split; [exact E |].
    steps_chain.
  - run_in H. apply IH in H as (t & Hr & Ht & S2).
    exists t. split; [exact Hr |]. split; [exact Ht |].
    eapply steps_trans; [| exact S2]. steps_chain.
Qed.

Lemma search_page_total N fuel name w :
  responsive (search_endpoint cat) N -> N <= fuel ->
  exists r w', search_page cat fuel name w = Some (r, w').
Proof.
  intros Hresp Hfuel.
  destruct (Hresp (tick w) (search_uri name)) as (n & Hn & Hok).
  assert (Hlt : n < fuel) by lia. clear Hn Hfuel Hresp.
  revert w fuel Hok Hlt. induction n as [|n IH]; intros w fuel Hok Hlt;
    (destruct fuel as [|fuel]; [lia |]); cbn [search_page];
    cbn [bind logging_info logging_warning time_sleep act requests_get emit tick].
  - rewrite Nat.add_0_r in Hok. rewrite Hok. simpl. eauto.
  - destruct (status_code _ =? 200)%Z; [unfold ret; eauto |].
    apply IH; [| lia]. simpl. now rewrite <- Nat.add_succ_comm in Hok.
Qed.

Lemma collect_matches_spec name artists acc :
  collect_matches name artists acc =
    (acc ++ map with_dispname (List.filter (is_match name) artists))%list.
Proof.
  revert acc. induction artists as [|a artists IH]; intros acc; simpl.
  - now rewrite app_nil_r.
  - destruct (is_match name a); rewrite IH; [| reflexivity].
    now rewrite <- app_assoc.
Qed.

Lemma search_artist_inv fuel name w r w' :
  search_artist cat fuel name w = Some (r, w') ->
  exists t,
    status_code (search_endpoint cat t (search_uri name)) = 200%Z /\
    r = Done (map with_dispname
                (List.filter (is_match name)
                   (default [] (content (search_endpoint cat t (search_uri name)))))) /\
    steps (lookup_event [name]) w w'.
Proof.
  unfold search_artist. intros H.
  apply bind_Some in H as [(e & H & _)|(page & w1 & H & H1)];
    apply search_page_inv in H as (t & Hr & Ht & St); [discriminate |].
  injection Hr as ->. injection H1 as <- <-.
  exists t. rewrite collect_matches_spec. auto.
Qed.

Lemma search_artist_total N fuel name w :
  responsive (search_endpoint cat) N -> N <= fuel ->
  exists r w', search_artist cat fuel name w = Some (r, w').
Proof.
  intros Hresp Hfuel. unfold search_artist, bind.
  destruct (search_page_total N fuel name w Hresp Hfuel) as (r & w' & ->).
  destruct r; unfold ret; eauto.
Qed.

Lemma artist_page_of_inv fuel art_id w r w' :
  artist_page_of cat fuel art_id w = Some (r, w') ->
  exists t,
    r = Done (artist_endpoint cat t (artist_uri art_id)) /\
    status_code (artist_endpoint cat t (artist_uri art_id)) = 200%Z /\
    steps fetch_event w w'.
Proof.
  revert w r. induction fuel as [|fuel IH]; intros w r H; [discriminate |].
  cbn [artist_page_of] in H. run_in H.
  assert (Hget : fetch_event (HttpGet (artist_uri art_id))) by (now exists art_id).
  destruct (Z.eqb_spec (status_code (artist_endpoint cat (tick (emit
    (LogInfo ("Querying MusicBrainz for artist_id:" +:+ PyStr.str art_id)) w))
    (artist_uri art_id))) 200) as [E|E].
  - injection H as <- <-. eexists. split; [reflexivity |]. split; [exact E |].
    steps_chain.
  - run_in H. apply IH in H as (t & Hr & Ht & S2).
    exists t. split; [exact Hr |]. split; [exact Ht |].
    eapply steps_trans; [| exact S2]. steps_chain.
Qed.

Lemma artist_page_of_total N fuel art_id w :
  responsive (artist_endpoint cat) N -> N <= fuel ->
  exists r w', artist_page_of cat fuel art_id w = Some (r, w').
Proof.
  intros Hresp Hfuel.
  destruct (Hresp (tick w) (artist_uri art_id)) as (n & Hn & Hok).
  assert (Hlt : n < fuel) by lia. clear Hn Hfuel Hresp.
  revert w fuel Hok Hlt. induction n as [|n IH]; intros w fuel Hok Hlt;
    (destruct fuel as [|fuel]; [lia |]); cbn [artist_page_of];
    cbn [bind logging_info logging_warning time_sleep act requests_get emit tick].
  - rewrite Nat.add_0_r in Hok. rewrite Hok. simpl. eauto.
  - destruct (status_code _ =? 200)%Z; [unfold ret; eauto |].
    apply IH; [| lia]. simpl. now rewrite <- Nat.add_succ_comm in Hok.
Qed.

Lemma get_releases_artist_inv fuel art_id w r w' :
  get_releases_artist cat fuel art_id w = Some (r, w') ->
  exists t,
    status_code (artist_endpoint cat t (artist_uri art_id)) = 200%Z /\
    r = Done (releases_of_page (content (artist_endpoint cat t (artist_uri art_id)))) /\
    steps fetch_event w w'.
Proof.
  unfold get_releases_artist. intros H.
  apply bind_Some in H as [(e & H & _)|(page & w1 & H & H1)];
    apply artist_page_of_inv in H as (t & Hr & Ht & St); [discriminate |].
  injection Hr as ->. injection H1 as <- <-.
  exists t. auto.
Qed.

Lemma get_releases_artist_total N fuel art_id w :
  responsive (artist_endpoint cat) N -> N <= fuel ->
  exists r w', get_releases_artist cat fuel art_id w = Some (r, w').
Proof.
  intros Hresp Hfuel. unfold get_releases_artist, bind.
  destruct (artist_page_of_total N fuel art_id w Hresp Hfuel) as (r & w' & ->).
  destruct r; unfold ret; eauto.
Qed.

Lemma fetch_all_inv fuel artist_ids acc w r w' :
  fetch_all cat fuel artist_ids acc w = Some (r, w') ->
  (exists rs, r = Done rs) /\ steps fetch_event w w'.
Proof.
  revert acc w. induction artist_ids as [|art_id rest IH]; intros acc w H.
  - injection H as <- <-. split; [eauto | apply steps_refl].
  - cbn [fetch_all] in H.
    apply bind_Some in H as [(e & H & _)|(rs & w1 & H & H1)];
      apply get_releases_artist_inv in H as (t & Ht & Hr & St); [discriminate |].
    apply IH in H1 as [Hrs S2]. split; [exact Hrs |].
    eapply steps_trans; eauto.
Qed.

Lemma fetch_all_total N fuel artist_ids acc w :
  responsive (artist_endpoint cat) N -> N <= fuel ->
  exists r w', fetch_all cat fuel artist_ids acc w = Some (r, w').
Proof.
  intros Hresp Hfuel. revert acc w.
  induction artist_ids as [|art_id rest IH]; intros acc w; cbn [fetch_all].
  - unfold ret. eauto.
  - unfold bind.
    destruct (get_releases_artist_total N fuel art_id w Hresp Hfuel) as (r & w1 & ->).
    destruct r; [apply IH | eauto].
Qed.

Lemma fetch_all_stable db fuel artist_ids acc w r w' :
  stable (artist_endpoint cat) db ->
  fetch_all cat fuel artist_ids acc w = Some (r, w') ->
  r = Done (acc ++ concat (map (fun i => releases_of_page (db (artist_uri i)))
                             artist_ids))%list.
Proof.
  intros Hst. revert acc w. induction artist_ids as [|art_id rest IH]; intros acc w H.
  - injection H as <- <-. simpl. now rewrite app_nil_r.
  - cbn [fetch_all] in H.
    apply bind_Some in H as [(e & H & _)|(rs & w1 & H & H1)];
      apply get_releases_artist_inv in H as (t & Ht & Hr & St); [discriminate |].
    injection Hr as ->. apply IH in H1 as ->. rewrite (Hst _ _ Ht).
    simpl. now rewrite <- app_assoc.
Qed.

Lemma print_releases_run releases w :
  print_releases releases w =
    Some (Done tt, emit_all (map (fun r => Stdout (release_line r)) releases) w).
Proof.
  revert w. induction releases as [|r rest IH]; intros w; cbn [print_releases].
  - unfold ret. now rewrite emit_all_nil.
  - cbn [bind print act]. rewrite IH. simpl map. now rewrite emit_all_cons.
Qed.

Lemma print_matches_run matches w :
  print_matches matches w =
    Some (Done tt, emit_all (map (fun m => Stdout (match_line m)) matches) w).
Proof.
  revert w. induction matches as [|m rest IH]; intros w; cbn [print_matches].
  - unfold ret. now rewrite emit_all_nil.
  - cbn [bind print act]. rewrite IH. simpl map. now rewrite emit_all_cons.
Qed.

Lemma bind_print_matches {B} matches (k : unit -> M B) w :
  bind (print_matches matches) k w =
    k tt (emit_all (map (fun m => Stdout (match_line m)) matches) w).
Proof. unfold bind. now rewrite print_matches_run. Qed.

Lemma Forall_Stdout (P : event -> Prop) {A} (f : A -> string) (l : list A) :
  (forall s, P (Stdout s)) -> Forall P (map (fun x => Stdout (f x)) l).
Proof. intros HP. induction l; simpl; constructor; auto. Qed.

Lemma lookup_items_inv fuel items kvs ch fl w r w' :
  lookup_items cat fuel items kvs ch fl w = Some (r, w') ->
  exists kvs' ch' fl',
    r = Done (kvs', ch', fl') /\
    steps (lookup_event (falsy_keys items)) w w' /\
    (forall k, ~ In k (falsy_keys items) -> dict_get k kvs' = dict_get k kvs).
Proof.
  revert kvs ch fl w. induction items as [|[k v] rest IH]; intros kvs ch fl w H.
  - injection H as <- <-. exists kvs, ch, fl.
    split; [reflexivity |]. split; [apply steps_refl | reflexivity].
  - cbn [lookup_items] in H. unfold falsy_keys. cbn [List.filter snd].
    destruct (truthy v) eqn:Ev; cbn [negb map fst].
    + now apply IH in H.
    + fold (falsy_keys rest). run_in H.
      apply bind_Some in H as [(e & H & _)|(ms & w1 & H & H1)];
        apply search_artist_inv in H as (t & Ht & Hr & St); [discriminate |].
      clear Hr.
      assert (S0 : steps (lookup_event (k :: falsy_keys rest)) w w1).
      { eapply steps_trans; cycle 1.
        - eapply steps_weaken; [| exact St].
          intros e. apply lookup_event_mono. intros k' [->|[]]. now left.
        - steps_chain. }
      assert (Hmono : forall w2 w3, steps (lookup_event (falsy_keys rest)) w2 w3 ->
                steps (lookup_event (k :: falsy_keys rest)) w2 w3).
      { intros w2 w3. apply steps_weaken. intros e. apply lookup_event_mono.
        intros k' Hk'. now right. }
      destruct ms as [|m [|m' ms]]; run_in H1.
      * rewrite bind_print_matches in H1.
        apply IH in H1 as (kvs' & ch' & fl' & -> & S2 & Hget).
        exists kvs', ch', fl'. split; [reflexivity |]. split.
        -- eapply steps_trans; [exact S0 |].
           eapply steps_trans; [| apply Hmono, S2].
           simpl map. rewrite emit_all_nil. steps_chain.
        -- intros k' Hk'. apply Hget. simpl in Hk'. tauto.
      * apply IH in H1 as (kvs' & ch' & fl' & -> & S2 & Hget).
        exists kvs', ch', fl'. split; [reflexivity |]. split.
        -- eapply steps_trans; [exact S0 |].
           eapply steps_trans; [| apply Hmono, S2]. steps_chain.
        -- intros k' Hk'. simpl in Hk'. rewrite Hget by tauto.
           apply dict_get_set_ne. intros ->. tauto.
      * rewrite bind_print_matches in H1.
        apply IH in H1 as (kvs' & ch' & fl' & -> & S2 & Hget).
        exists kvs', ch', fl'. split; [reflexivity |]. split.
        -- eapply steps_trans; [exact S0 |].
           eapply steps_trans; [| apply Hmono, S2].
           eapply steps_trans; [| apply steps_emit_all, Forall_Stdout; intros; exact I].
           steps_chain.
        -- intros k' Hk'. apply Hget. simpl in Hk'. tauto.
Qed.


Lemma lookup_items_stable db fuel items kvs ch fl w r w' :
  stable (search_endpoint cat) db ->
  lookup_items cat fuel items kvs ch fl w = Some (r, w') ->
  r = Done (resolve_items db items kvs ch fl).
Proof.
  intros Hst. revert kvs ch fl w.
  induction items as [|[k v] rest IH]; intros kvs ch fl w H.
  - now injection H as <- <-.
  - cbn [lookup_items resolve_items] in *.
    destruct (truthy v); [now apply IH in H |].
    run_in H.
    apply bind_Some in H as [(e & H & _)|(ms & w1 & H & H1)];
      apply search_artist_inv in H as (t & Ht & Hr & St); [discriminate |].
    injection Hr as ->. rewrite (Hst _ _ Ht) in H1. fold (candidates db k) in H1.
    destruct (candidates db k) as [|m [|m' ms]]; run_in H1;
      rewrite ?bind_print_matches in H1; now apply IH in H1.
Qed.

Lemma dict_set_truthy k v d : dict_truthy (dict_set k v d) = true.
Proof. destruct d as [|[k' v'] d]; simpl; [reflexivity |]. now destruct (String.eqb k k'). Qed.

Lemma lookup_items_nonempty fuel items kvs ch fl w kvs' ch' fl' w' :
  lookup_items cat fuel items kvs ch fl w = Some (Done (kvs', ch', fl'), w') ->
  (dict_truthy kvs = true -> dict_truthy kvs' = true) /\
  (ch' = true -> ch = true \/ dict_truthy kvs' = true).
Proof.
  revert kvs ch fl w. induction items as [|[k v] rest IH]; intros kvs ch fl w H.
  - injection H as <- <- <- <-. tauto.
  - cbn [lookup_items] in H. destruct (truthy v); [now apply IH in H |].
    run_in H.
    apply bind_Some in H as [(e & _ & [=])|(ms & w1 & _ & H1)].
    destruct ms as [|m [|m' ms]]; run_in H1;
      rewrite ?bind_print_matches in H1; apply IH in H1 as [H1 H2];
      try tauto.
    rewrite dict_set_truthy in H1. specialize (H1 eq_refl). tauto.
Qed.

Lemma get_releases_inv fuel artist_ids w r w' :
  get_releases cat fuel artist_ids w = Some (r, w') ->
  exists all_releases,
    fetch_all cat fuel artist_ids [] w = Some (Done all_releases, w') /\
    r = Done (sorted_desc all_releases) /\
    steps fetch_event w w'.
Proof.
  unfold get_releases. intros H.
  apply bind_Some in H as [(e & H & _)|(rs & w1 & H & H1)].
  - apply fetch_all_inv in H as [(rs & [=]) _].
  - injection H1 as <- <-. exists rs. split; [exact H |]. split; [reflexivity |].
    now apply fetch_all_inv in H.
Qed.

Lemma get_releases_total N fuel artist_ids w :
  responsive (artist_endpoint cat) N -> N <= fuel ->
  exists r w', get_releases cat fuel artist_ids w = Some (r, w').
Proof.
  intros Hresp Hfuel. unfold get_releases, bind.
  destruct (fetch_all_total N fuel artist_ids [] w Hresp Hfuel) as (r & w' & ->).
  destruct r; unfold ret; eauto.
Qed.

Lemma resolution_inv fuel kvs w r w' :
  resolution cat fuel kvs w = Some (r, w') ->
  exists kvs' ch fl,
    r = Done (kvs', ch, fl) /\
    steps (lookup_event (falsy_keys kvs)) w w' /\
    (forall k, ~ In k (falsy_keys kvs) -> dict_get k kvs' = dict_get k kvs) /\
    (ch = true -> dict_truthy kvs' = true).
Proof.
  unfold resolution. destruct (dict_truthy kvs) eqn:Ek; intros H.
  - unfold lookup in H. pose proof H as H0.
    apply lookup_items_inv in H as (kvs' & ch & fl & -> & St & Hget).
    exists kvs', ch, fl. repeat split; try assumption.
    + apply St.
    + apply St.
    + apply lookup_items_nonempty in H0 as [H1 _]. auto.
  - injection H as <- <-. exists kvs, false, false.
    repeat split; try reflexivity; try discriminate.
    exists []. split; [now rewrite app_nil_r | constructor].
Qed.

Lemma json_dump_run (path : string) (kvs : dict) (w : world) :
  json_dump path kvs w =
    if no_directory w path then Some (Raise FileNotFoundError, w)
    else Some (Done tt, write_file path kvs w).
Proof.
  unfold json_dump, no_directory.
  destruct (fs w !! path) as [[j| |]|]; reflexivity.
Qed.

Lemma run_inv fuel a kvs w r w' :
  run cat fuel a kvs w = Some (r, w') ->
  exists kvs1 ch fl w1,
    resolution cat fuel kvs w = Some (Done (kvs1, ch, fl), w1) /\
    if blocked ch a w1 then r = Raise FileNotFoundError /\ w' = w1
    else
      let w2 := if (ch && truthy (json a))%bool
                then write_file (PyStr.str (json a)) kvs1 w1 else w1 in
      if fl then r = Done tt /\ w' = emit (Stdout failure_message) w2
      else if list_truthy (ids a)
      then r = Raise (AttributeError "artist_ids") /\ w' = w2
      else exists rs w3,
          get_releases cat fuel (dict_values kvs1) w2 = Some (Done rs, w3) /\
          r = Done tt /\
          w' = emit_all (map (fun x => Stdout (release_line x)) rs) w3.
Proof.
  unfold run. fold (resolution cat fuel kvs). intros H.
  apply bind_Some in H as [(e & H & _)|([[kvs1 ch] fl] & w1 & H & H1)].
  { apply resolution_inv in H as (? & ? & ? & [=] & _). }
  exists kvs1, ch, fl, w1. split; [exact H |].
  apply resolution_inv in H as (? & ? & ? & [= <- <- <-] & _ & _ & Hne).
  assert (Ec : (dict_truthy kvs1 && ch && truthy (json a))%bool
               = (ch && truthy (json a))%bool).
  { destruct ch; [rewrite Hne by reflexivity |]; simpl;
      [reflexivity | now rewrite andb_false_r]. }
  rewrite Ec in H1. clear Ec. unfold blocked.
  set (c := (ch && truthy (json a))%bool) in *.
  destruct c; cbn [andb].
  - unfold bind at 1 in H1. rewrite json_dump_run in H1.
    destruct (no_directory w1 (PyStr.str (json a))).
    + now injection H1 as <- <-.
    + cbv zeta. set (w2 := write_file _ _ w1) in *. clearbody w2.
      destruct fl.
      * injection H1 as <- <-. auto.
      * destruct (list_truthy (ids a)).
        -- injection H1 as <- <-. auto.
        -- run_in H1.
           apply bind_Some in H1 as [(e & H2 & _)|(rs & w3 & H2 & H3)].
           ++ apply get_releases_inv in H2 as (? & _ & [=] & _).
           ++ rewrite print_releases_run in H3. injection H3 as <- <-. eauto.
  - cbv zeta. run_in H1.
    destruct fl.
    * injection H1 as <- <-. auto.
    * destruct (list_truthy (ids a)).
      -- injection H1 as <- <-. auto.
      -- run_in H1.
         apply bind_Some in H1 as [(e & H2 & _)|(rs & w3 & H2 & H3)].
         ++ apply get_releases_inv in H2 as (? & _ & [=] & _).
         ++ rewrite print_releases_run in H3. injection H3 as <- <-. eauto.
Qed.

End Runs.

(** ** Facts about the sort *)

Lemma string_compare_refl (s : string) : String.compare s s = Eq.
Proof.
  pose proof (String.compare_antisym s s) as H.
  destruct (String.compare s s); simpl in H; congruence.
Qed.

Lemma string_ltb_irrefl (s : string) : String.ltb s s = false.
Proof. unfold String.ltb. now rewrite string_compare_refl. Qed.

Lemma string_ltb_leb (s t : string) : String.ltb s t = true -> String.leb s t = true.
Proof. unfold String.ltb, String.leb. now destruct (String.compare s t). Qed.

Lemma string_nltb_leb (s t : string) : String.ltb s t = false -> String.leb t s = true.
Proof.
  unfold String.ltb, String.leb. rewrite (String.compare_antisym s t).
  now destruct (String.compare t s).
Qed.

Lemma string_leb_trans (s t u : string) :
  String.leb s t = true -> String.leb t u = true -> String.leb s u = true.
Proof.
  intros H1 H2. apply Is_true_true.
  change (String.le s u). transitivity t; apply Is_true_true; assumption.
Qed.

Lemma newer_first_trans : Relations_1.Transitive newer_first.
Proof. intros r1 r2 r3 H12 H23. unfold newer_first in *. eapply string_leb_trans; eauto. Qed.

Lemma insert_desc_perm (x : release) (l : list release) :
  Permutation (insert_desc x l) (x :: l).
Proof.
  induction l as [|y l IH]; simpl; [reflexivity |].
  destruct (String.ltb (date_of x) (date_of y)); [| reflexivity].
  rewrite IH. apply perm_swap.
Qed.

Lemma sorted_desc_perm (l : list release) : Permutation (sorted_desc l) l.
Proof.
  induction l as [|x l IH]; simpl; [reflexivity |].
  rewrite insert_desc_perm. now constructor.
Qed.

Lemma insert_desc_sorted (x : release) (l : list release) :
  Sorted newer_first l -> Sorted newer_first (insert_desc x l).
Proof.
  induction l as [|y l IH]; intros Hs; simpl.
  - repeat constructor.
  - destruct (String.ltb (date_of x) (date_of y)) eqn:E.
    + apply Sorted_inv in Hs as [Hs Hhd]. constructor; [now apply IH |].
      destruct l as [|z l]; simpl.
      * constructor. now apply string_ltb_leb.
      * destruct (String.ltb (date_of x) (date_of z)).
        -- constructor. now apply HdRel_inv in Hhd.
        -- constructor. now apply string_ltb_leb.
    + constructor; [exact Hs |]. constructor. now apply string_nltb_leb.
Qed.

Lemma sorted_desc_sorted (l : list release) : StronglySorted newer_first (sorted_desc l).
Proof.
  apply Sorted_StronglySorted; [exact newer_first_trans |].
  induction l as [|x l IH]; simpl; [constructor | now apply insert_desc_sorted].
Qed.

Lemma insert_desc_stable (d : string) (x : release) (l : list release) :
  List.filter (same_date d) (insert_desc x l) = List.filter (same_date d) (x :: l).
Proof.
  induction l as [|y l IH]; [reflexivity |].
  cbn [insert_desc]. destruct (String.ltb (date_of x) (date_of y)) eqn:E;
    [| reflexivity].
  cbn [List.filter] in *. rewrite IH.
  destruct (same_date d x) eqn:Ex, (same_date d y) eqn:Ey; try reflexivity.
  unfold same_date in *. apply String.eqb_eq in Ex, Ey.
  rewrite Ex, Ey, string_ltb_irrefl in E. discriminate.
Qed.

Lemma sorted_desc_stable (d : string) (l : list release) :
  List.filter (same_date d) (sorted_desc l) = List.filter (same_date d) l.
Proof.
  induction l as [|x l IH]; [reflexivity |].
  cbn [sorted_desc foldr]. fold (sorted_desc l). rewrite insert_desc_stable.
  cbn [List.filter]. now rewrite IH.
Qed.

(** The three properties above fix the result: any list that is sorted
    newest first and shows, date by date, the same releases in the same
    order, is the one [sorted_desc] computes. *)
Lemma stable_sorted_unique (l1 l2 : list release) :
  StronglySorted newer_first l1 -> StronglySorted newer_first l2 ->
  (forall d, List.filter (same_date d) l1 = List.filter (same_date d) l2) ->
  l1 = l2.
Proof.
  assert (Hrefl : forall r, same_date (date_of r) r = true).
  { intros r. apply String.eqb_refl. }
  assert (Hhead : forall x l y l',
            Forall (newer_first y) l' ->
            List.filter (same_date (date_of x)) (x :: l)
              = List.filter (same_date (date_of x)) (y :: l') ->
            String.leb (date_of x) (date_of y) = true).
  { intros x l y l' A H. rewrite Forall_forall in A.
    assert (Hin : In x (List.filter (same_date (date_of x)) (y :: l'))).
    { rewrite <- H. cbn [List.filter]. rewrite Hrefl. now left. }
    apply filter_In in Hin as [[->|Hin] _].
    - apply string_nltb_leb, string_ltb_irrefl.
    - apply list_elem_of_In, A in Hin. exact Hin. }
  revert l2. induction l1 as [|x l1 IH]; intros l2 S1 S2 Hf.
  - destruct l2 as [|y l2]; [reflexivity |].
    specialize (Hf (date_of y)). cbn [List.filter] in Hf.
    rewrite Hrefl in Hf. discriminate.
  - destruct l2 as [|y l2].
    + specialize (Hf (date_of x)). cbn [List.filter] in Hf.
      rewrite Hrefl in Hf. discriminate.
    + apply StronglySorted_inv in S1 as [S1 A1].
      apply StronglySorted_inv in S2 as [S2 A2].
      pose proof (Hhead x l1 y l2 A2 (Hf (date_of x))) as Hxy.
      pose proof (Hhead y l2 x l1 A1 (eq_sym (Hf (date_of y)))) as Hyx.
      pose proof (String.leb_antisym _ _ Hxy Hyx) as Exy.
      assert (Ex : x = y).
      { pose proof (Hf (date_of x)) as H. cbn [List.filter] in H.
        assert (Hy : same_date (date_of x) y = true)
          by (unfold same_date; rewrite Exy; apply String.eqb_refl).
        rewrite Hrefl, Hy in H. now injection H. }
      subst y. f_equal. apply IH; auto.
      intros d. specialize (Hf d). cbn [List.filter] in Hf.
      destruct (same_date d x); [now injection Hf | exact Hf].
Qed.

Lemma sorted_desc_unique (l l' : list release) :
  StronglySorted newer_first l' ->
  (forall d, List.filter (same_date d) l' = List.filter (same_date d) l) ->
  l' = sorted_desc l.
Proof.
  intros Hs Hf. apply stable_sorted_unique; [exact Hs | apply sorted_desc_sorted |].
  intros d. now rewrite Hf, sorted_desc_stable.
Qed.

(** ** The sample catalog answers *)

Lemma demo_search_stable : stable (search_endpoint Demo.cat) Demo.search_db.
Proof. intros t uri _. reflexivity. Qed.

Lemma demo_artist_stable : stable (artist_endpoint Demo.cat) Demo.artist_db.
Proof. intros t uri _. reflexivity. Qed.

Lemma demo_search_responsive : responsive (search_endpoint Demo.cat) 2.
Proof.
  intros t uri. exists 1. split; [lia |]. simpl.
  now replace (t + 1) with (S t) by lia.
Qed.

Lemma demo_artist_responsive : responsive (artist_endpoint Demo.cat) 2.
Proof.
  intros t uri. exists 1. split; [lia |]. simpl.
  now replace (t + 1) with (S t) by lia.
Qed.

(** ** The resolver *)

Lemma c_artist_with_dispname (a : artist) : c_artist (with_dispname a) = a.
Proof.
  unfold with_dispname. destruct (a_disambiguation a) as [note|]; [| reflexivity].
  now destruct (truthy (Some note)).
Qed.

Lemma map_c_artist_with_dispname (l : list artist) :
  map c_artist (map with_dispname l) = l.
Proof.
  induction l as [|a l IH]; simpl; [reflexivity |].
  now rewrite IH, c_artist_with_dispname.
Qed.

Lemma is_match_spec (name : string) (a : artist) :
  is_match name a = true <-> a_name a = name \/ a_score a = 100%Z.
Proof.
  unfold is_match. rewrite orb_true_iff, String.eqb_eq, Z.eqb_eq. reflexivity.
Qed.

Lemma filter_is_match (name : string) (l : list artist) :
  List.filter (is_match name) l =
    filter (fun a => a_name a = name \/ a_score a = 100%Z) l.
Proof.
  induction l as [|a l IH]; [reflexivity |]. cbn [List.filter].
  rewrite filter_cons, IH.
  destruct (is_match name a) eqn:E; case_decide as D; try reflexivity.
  - apply is_match_spec in E. contradiction.
  - apply is_match_spec in D. congruence.
Qed.

(** C2. Once the catalog answers, [search_artist] returns exactly the
    artists of the answer whose name equals the query or whose score is
    100, in the order the catalog listed them: every exact-name artist and
    every score-100 artist is kept, every other one is dropped. *)
Theorem search_artist_exact_or_perfect (cat : catalog) (N fuel : nat)
    (name : string) (w : world) :
  responsive (search_endpoint cat) N -> N <= fuel ->
  exists t ms w',
    search_artist cat fuel name w = Some (Done ms, w') /\
    status_code (search_endpoint cat t (search_uri name)) = 200%Z /\
    let returned := default [] (content (search_endpoint cat t (search_uri name))) in
    map c_artist ms = filter (fun a => a_name a = name \/ a_score a = 100%Z) returned /\
    (forall a, In a returned -> a_name a = name -> In a (map c_artist ms)) /\
    (forall a, In a returned -> a_score a = 100%Z -> In a (map c_artist ms)) /\
    (forall a, In a (map c_artist ms) ->
       In a returned /\ (a_name a = name \/ a_score a = 100%Z)).
Proof.
  intros Hresp Hfuel.
  destruct (search_artist_total cat N fuel name w Hresp Hfuel) as (r & w' & H).
  pose proof H as H0.
  apply search_artist_inv in H0 as (t & Ht & -> & _).
  exists t. eexists. exists w'. split; [exact H |]. split; [exact Ht |].
  cbv zeta. rewrite map_c_artist_with_dispname.
  set (returned := default [] _).
  assert (Hin : forall a, In a (List.filter (is_match name) returned) <->
                  In a returned /\ (a_name a = name \/ a_score a = 100%Z)).
  { intros a. rewrite filter_In, is_match_spec. reflexivity. }
  split; [apply filter_is_match |].
  split; [| split].
  - intros a Ha Hn. apply Hin. auto.
  - intros a Ha Hs. apply Hin. auto.
  - intros a Ha. now apply Hin.
Qed.

Lemma search_artist_exact_or_perfect_witness :
  exists t ms w',
    search_artist Demo.cat 2 "Twin" (Demo.start ∅) = Some (Done ms, w') /\
    status_code (search_endpoint Demo.cat t (search_uri "Twin")) = 200%Z /\
    map c_artist ms = [Demo.twin_1; Demo.twin_2].
Proof.
  destruct (search_artist_exact_or_perfect Demo.cat 2 2 "Twin" (Demo.start ∅))
    as (t & ms & w' & H & Ht & Hms & _).
  - exact demo_search_responsive.
  - lia.
  - exists t, ms, w'. split; [exact H |]. split; [exact Ht |].
    rewrite Hms. reflexivity.
Defined.

(** C6. Every candidate [search_artist] keeps carries a display name: for
    an artist named Y with a non-empty disambiguation note X it is
    "Y (X)", and for an artist with no note, be the note absent or the
    empty string, it is Y itself. *)
Theorem display_name_format (cat : catalog) (N fuel : nat) (name : string)
    (w : world) :
  responsive (search_endpoint cat) N -> N <= fuel ->
  exists ms w',
    search_artist cat fuel name w = Some (Done ms, w') /\
    forall m, In m ms ->
      (forall X, a_disambiguation (c_artist m) = Some X -> X <> "" ->
         dispname m = a_name (c_artist m) +:+ " (" +:+ X +:+ ")") /\
      (a_disambiguation (c_artist m) = None -> dispname m = a_name (c_artist m)) /\
      (a_disambiguation (c_artist m) = Some "" -> dispname m = a_name (c_artist m)).
Proof.
  intros Hresp Hfuel.
  destruct (search_artist_total cat N fuel name w Hresp Hfuel) as (r & w' & H).
  pose proof H as H0.
  apply search_artist_inv in H0 as (t & Ht & -> & _).
  eexists. exists w'. split; [exact H |].
  intros m Hm. apply in_map_iff in Hm as (a & <- & _).
  rewrite c_artist_with_dispname. unfold with_dispname. split; [| split].
  - intros X HX Hne. rewrite HX. simpl.
    destruct (String.eqb_spec X ""); [contradiction | reflexivity].
  - intros HN. now rewrite HN.
  - intros HE. now rewrite HE.
Qed.

Lemma display_name_format_witness :
  exists ms w',
    search_artist Demo.cat 2 "Twin" (Demo.start ∅) = Some (Done ms, w') /\
    map c_artist ms = [Demo.twin_1; Demo.twin_2] /\
    Forall (fun m => dispname m = "Twin") ms.
Proof.
  destruct (display_name_format Demo.cat 2 2 "Twin" (Demo.start ∅))
    as (ms & w' & H & Hall).
  - exact demo_search_responsive.
  - lia.
  - exists ms, w'. split; [exact H |].
    vm_compute in H. injection H as <- _. split; [reflexivity |].
    constructor; [| constructor; [| constructor]].
    + destruct (Hall _ (or_introl eq_refl)) as (_ & Hnone & _).
      exact (Hnone eq_refl).
    + destruct (Hall _ (or_intror (or_introl eq_refl))) as (_ & _ & Hempty).
      exact (Hempty eq_refl).
Defined.

(** ** The release fetcher *)

Lemma requested_app (e1 e2 : list event) :
  requested (e1 ++ e2) = (requested e1 ++ requested e2)%list.
Proof. apply flat_map_app. Qed.

Lemma new_events_app (w w' : world) (evs : list event) :
  trace w' = (trace w ++ evs)%list -> new_events w w' = evs.
Proof. intros H. unfold new_events. rewrite H. apply drop_app_length. Qed.

Section Fetching.

Variable cat : catalog.

Lemma artist_page_of_requests fuel art_id w r w' :
  artist_page_of cat fuel art_id w = Some (r, w') ->
  exists evs n,
    trace w' = (trace w ++ evs)%list /\
    requested evs = replicate (S n) (artist_uri art_id).
Proof.
  revert w r w'. induction fuel as [|fuel IH]; intros w r w' H; [discriminate |].
  cbn [artist_page_of] in H. run_in H.
  set (info := LogInfo _) in H. set (get := HttpGet _) in H.
  destruct (status_code _ =? 200)%Z.
  - injection H as _ <-. exists [info; get], 0. split; [| reflexivity].
    simpl. now rewrite <- app_assoc.
  - run_in H. set (warn := LogWarning _) in H.
    apply IH in H as (evs & n & T & Hreq).
    exists (info :: get :: warn :: Sleep 5 :: evs), (S n). split.
    + rewrite T. simpl. now rewrite <- !app_assoc.
    + change (requested (info :: get :: warn :: Sleep 5 :: evs))
        with (artist_uri art_id :: requested evs).
      now rewrite Hreq.
Qed.

Lemma fetch_all_requests fuel artist_ids acc w r w' :
  fetch_all cat fuel artist_ids acc w = Some (r, w') ->
  exists evs retries,
    trace w' = (trace w ++ evs)%list /\
    length retries = length artist_ids /\
    requested evs =
      concat (zip_with (fun i n => replicate (S n) (artist_uri i)) artist_ids retries).
Proof.
  revert acc w. induction artist_ids as [|art_id rest IH]; intros acc w H.
  - injection H as _ <-. exists [], []. now rewrite app_nil_r.
  - cbn [fetch_all] in H.
    apply bind_Some in H as [(e & H & _)|(rs & w1 & H & H1)].
    { apply get_releases_artist_inv in H as (? & _ & [=] & _). }
    unfold get_releases_artist in H.
    apply bind_Some in H as [(e & _ & [=])|(page & w2 & H & H2)].
    injection H2 as _ <-.
    apply artist_page_of_requests in H as (e1 & n & T1 & R1).
    apply IH in H1 as (e2 & ns & T2 & Hlen & R2).
    exists (e1 ++ e2)%list, (n :: ns). split; [| split].
    + now rewrite T2, T1, app_assoc.
    + simpl. now rewrite Hlen.
    + rewrite requested_app, R1, R2. reflexivity.
Qed.

End Fetching.

(** C3. Against a catalog that keeps answering, [get_releases] requests
    the artists in input order (repeating a request until it is answered)
    and returns the concatenation of their release groups reordered by
    first-release-date, newest first under byte-wise string comparison;
    releases with equal dates keep the order they had in the
    concatenation.  Dates 2020-01-01, 1999-05-05, 2020-06-01 come out as
    2020-06-01, 2020-01-01, 1999-05-05. *)
Theorem get_releases_sorted_by_date (cat : catalog) (db : string -> artist_page)
    (N fuel : nat) (artist_ids : list (option string)) (w : world) :
  stable (artist_endpoint cat) db ->
  responsive (artist_endpoint cat) N -> N <= fuel ->
  let fetched :=
    concat (map (fun i => releases_of_page (db (artist_uri i))) artist_ids) in
  exists rs w' retries,
    get_releases cat fuel artist_ids w = Some (Done rs, w') /\
    length retries = length artist_ids /\
    requested (new_events w w') =
      concat (zip_with (fun i n => replicate (S n) (artist_uri i)) artist_ids retries) /\
    Permutation rs fetched /\
    StronglySorted (fun r1 r2 => String.leb (date_of r2) (date_of r1) = true) rs /\
    (forall d, List.filter (fun r => String.eqb (date_of r) d) rs =
               List.filter (fun r => String.eqb (date_of r) d) fetched) /\
    (forall t1 t2 t3 a1 a2 a3,
       map date_of
         (sorted_desc
            [ {| r_group := {| first_release_date := "2020-01-01"; title := t1 |};
                 r_artist := a1 |};
              {| r_group := {| first_release_date := "1999-05-05"; title := t2 |};
                 r_artist := a2 |};
              {| r_group := {| first_release_date := "2020-06-01"; title := t3 |};
                 r_artist := a3 |} ])
       = ["2020-06-01"; "2020-01-01"; "1999-05-05"]).
Proof.
  intros Hst Hresp Hfuel fetched.
  destruct (get_releases_total cat N fuel artist_ids w Hresp Hfuel) as (r & w' & H).
  pose proof H as H0.
  apply get_releases_inv in H0 as (all_releases & Hall & -> & _).
  pose proof (fetch_all_stable cat db _ _ _ _ _ _ Hst Hall) as Hdb.
  injection Hdb as Hdb. simpl in Hdb. fold fetched in Hdb. subst all_releases.
  apply fetch_all_requests in Hall as (evs & retries & T & Hlen & Hreq).
  exists (sorted_desc fetched), w', retries.
  split; [exact H |]. split; [exact Hlen |].
  split; [now rewrite (new_events_app _ _ _ T) |].
  split; [apply sorted_desc_perm |].
  split; [apply sorted_desc_sorted |].
  split; [intros d; apply (sorted_desc_stable d) |].
  reflexivity.
Qed.

Lemma get_releases_sorted_by_date_witness :
  exists rs w',
    get_releases Demo.cat 2 [Some "id-b"; Some "id-123"] (Demo.start ∅)
      = Some (Done rs, w') /\
    map (fun r => (date_of r, title (r_group r))) rs =
      [("2020-06-01", "Second"); ("2020-01-01", "First"); ("2020-01-01", "Debut");
       ("2011", "Demo"); ("1999-05-05", "Early")] /\
    requested (trace w') =
      [artist_uri (Some "id-b"); artist_uri (Some "id-b"); artist_uri (Some "id-123")].
Proof.
  destruct (get_releases_sorted_by_date Demo.cat Demo.artist_db 2 2
              [Some "id-b"; Some "id-123"] (Demo.start ∅))
    as (rs & w' & retries & H & _).
  - exact demo_artist_stable.
  - exact demo_artist_responsive.
  - lia.
  - exists rs, w'. split; [exact H |].
    vm_compute in H. injection H as <- <-. split; reflexivity.
Defined.

(** ** The presenter *)

(** C5, as stated, fails: between the date and the artist name the
    program prints a single space, not " - ". *)
Lemma print_releases_separator_counterexample :
  exists w',
    print_releases [first_by_artist_b] (Demo.start ∅) = Some (Done tt, w') /\
    trace w' = [Stdout "2020-01-01 Artist B - First"] /\
    trace w' <> [Stdout (spec_release_line first_by_artist_b)].
Proof.
  eexists. split; [reflexivity |]. split; [reflexivity |]. vm_compute. discriminate.
Qed.

(** C5, amended. [print_releases] prints exactly one line per release, in
    listing order, and nothing else: the first-release-date padded with
    spaces on the right to ten characters (characters, not bytes; longer
    dates are kept whole), one space, the owning artist's name, " - ", and
    the title. *)
Theorem print_releases_lines (releases : list release) (w : world) :
  exists w',
    print_releases releases w = Some (Done tt, w') /\
    tick w' = tick w /\ fs w' = fs w /\
    trace w' =
      (trace w ++
       map (fun r => Stdout (PyStr.ljust 10 (first_release_date (r_group r)) +:+ " "
                             +:+ ai_name (r_artist r) +:+ " - " +:+ title (r_group r)))
         releases)%list /\
    (forall r, In r releases ->
       PyStr.len (PyStr.ljust 10 (first_release_date (r_group r)))
         = Nat.max 10 (PyStr.len (first_release_date (r_group r))) /\
       exists pad, PyStr.ljust 10 (first_release_date (r_group r))
                   = first_release_date (r_group r) +:+ PyStr.spaces pad).
Proof.
  eexists. split; [apply print_releases_run |].
  repeat split.
  - apply ljust_length.
  - eexists. reflexivity.
Qed.

(** ** The orchestrator *)

(** C1 fails on the code: [main] reads [args.artist_ids], an attribute the
    parser never defines (the option is stored as [ids]).  With one name
    resolved and one identifier given by [--ids], the run ends in
    [AttributeError] after resolution, and no release is ever requested or
    printed. *)
Theorem main_with_ids_raises :
  main Demo.cat 2
    {| ids := Some ["id-123"]; artists := Some ["Artist B"]; json := None;
       verbose := false |}
    (Demo.start ∅)
  = Some (Raise (AttributeError "artist_ids"),
          {| tick := 2; fs := ∅;
             trace :=
               [ Stdout "Lookup on Artist B";
                 LogInfo "Querying MusicBrainz for artist=Artist B";
                 HttpGet (search_uri "Artist B");
                 LogWarning "MusicBrainz returned status=503";
                 Sleep 5;
                 LogInfo "Querying MusicBrainz for artist=Artist B";
                 HttpGet (search_uri "Artist B");
                 Stdout "Found Artist match with high confidence:";
                 Stdout "Artist B (UK band) (100%) id-b" ] |}).
Proof. vm_compute. reflexivity. Qed.

Lemma load_cache_run (a : args) (kvs : dict) (w : world) :
  load_cache a kvs w =
    Some (match (if truthy (json a) then fs w !! PyStr.str (json a) else None) with
          | None | Some NoDirectory => Done kvs
          | Some (Mapping j) => Done (dict_update kvs j)
          | Some Malformed => Raise JSONDecodeError
          end, w).
Proof.
  unfold load_cache. destruct (truthy (json a)); [| reflexivity].
  unfold try_except, bind, open_read.
  destruct (fs w !! PyStr.str (json a)) as [[j| |]|]; reflexivity.
Qed.


Lemma main_inv (cat : catalog) fuel a w r w' :
  main cat fuel a w = Some (r, w') ->
  (r = Raise JSONDecodeError /\ w' = w /\ working_set a w = []) \/
  run cat fuel a (working_set a w) w = Some (r, w').
Proof.
  unfold main, working_set, bind. rewrite load_cache_run.
  destruct (if truthy (json a) then _ else _) as [[j| |]|]; intros H; auto.
  injection H as <- <-. auto.
Qed.

Lemma resolve_items_flags db items kvs ch fl :
  snd (fst (resolve_items db items kvs ch fl)) = (ch || existsb (resolves db) items)%bool /\
  snd (resolve_items db items kvs ch fl) = (fl || existsb (fails db) items)%bool.
Proof.
  revert kvs ch fl. induction items as [|[k v] rest IH]; intros kvs ch fl.
  - simpl. now rewrite !orb_false_r.
  - cbn [resolve_items existsb]. unfold resolves at 1, fails at 1. cbn [fst snd].
    destruct (truthy v); cbn [negb andb orb]; [apply IH |].
    destruct (candidates db k) as [|m [|m' ms]]; cbn [length Nat.eqb negb];
      match goal with
      | |- context [resolve_items db rest ?d ?c ?f] =>
          destruct (IH d c f) as [I1 I2]; rewrite I1, I2
      end; cbn [orb]; rewrite ?orb_true_r, ?orb_false_r; auto.
Qed.


Section Orchestrator.

Variable cat : catalog.



Lemma no_directory_fs (w w1 : world) (path : string) :
  fs w1 = fs w -> no_directory w1 path = no_directory w path.
Proof. unfold no_directory. now intros ->. Qed.

Lemma written_blocked (ch : bool) (a : args) (w : world) :
  written ch a w = ((ch && truthy (json a)) && negb (blocked ch a w))%bool.
Proof.
  unfold written, blocked.
  destruct ch, (truthy (json a)), (no_directory w (PyStr.str (json a))); reflexivity.
Qed.

(** The shape of every finished [run]: resolution, then at most one write
    of the cache, then, unless the cache could not be opened, either the
    failure message, the exception of line 132, or the release listing. *)
Lemma run_trace fuel a kvs w r w' :
  run cat fuel a kvs w = Some (r, w') ->
  exists kvs1 ch fl w1 e1 e3,
    resolution cat fuel kvs w = Some (Done (kvs1, ch, fl), w1) /\
    trace w1 = (trace w ++ e1)%list /\
    Forall (lookup_event (falsy_keys kvs)) e1 /\
    (forall k, ~ In k (falsy_keys kvs) -> dict_get k kvs1 = dict_get k kvs) /\
    new_events w w' =
      (e1 ++ (if written ch a w
              then [FileWrite (PyStr.str (json a)) kvs1] else []) ++ e3)%list /\
    fs w' = (if written ch a w
             then <[PyStr.str (json a) := Mapping kvs1]> (fs w) else fs w) /\
    (if blocked ch a w then r = Raise FileNotFoundError /\ e3 = []
     else if fl then r = Done tt /\ e3 = [Stdout failure_message]
     else if list_truthy (ids a) then r = Raise (AttributeError "artist_ids") /\ e3 = []
     else r = Done tt /\ Forall fetch_event e3).
Proof.
  intros H. apply run_inv in H as (kvs1 & ch & fl & w1 & Hres & H).
  pose proof Hres as Hres0.
  apply resolution_inv in Hres0 as (? & ? & ? & [= <- <- <-] & [F1 (e1 & T1 & P1)] & Hget & _).
  assert (Hb : blocked ch a w1 = blocked ch a w).
  { unfold blocked. now rewrite (no_directory_fs w w1 _ F1). }
  rewrite Hb in H.
  destruct (blocked ch a w) eqn:Eb.
  { destruct H as [-> ->].
    exists kvs1, ch, fl, w1, e1, [].
    rewrite written_blocked, Eb, andb_false_r. repeat split; auto.
    apply new_events_app. rewrite T1. cbn [app]. now rewrite app_nil_r. }
  assert (Hw : written ch a w = (ch && truthy (json a))%bool).
  { now rewrite written_blocked, Eb, andb_true_r. }
  cbv zeta in H.
  set (c := (ch && truthy (json a))%bool) in *.
  set (e2 := if c then [FileWrite (PyStr.str (json a)) kvs1] else []).
  set (w2 := if c then write_file (PyStr.str (json a)) kvs1 w1 else w1) in *.
  assert (T2 : trace w2 = (trace w ++ e1 ++ e2)%list).
  { subst w2 e2. destruct c; simpl; rewrite T1.
    - now rewrite <- app_assoc.
    - now rewrite app_nil_r. }
  assert (F2 : fs w2 = if c then <[PyStr.str (json a) := Mapping kvs1]> (fs w) else fs w).
  { subst w2. destruct c; simpl; now rewrite F1. }
  clearbody w2.
  assert (Hfin : forall e3, trace w' = (trace w2 ++ e3)%list ->
            new_events w w' = (e1 ++ e2 ++ e3)%list).
  { intros e3 T3. apply new_events_app. rewrite T3, T2. now rewrite <- !app_assoc. }
  destruct fl; [| destruct (list_truthy (ids a))].
  - destruct H as [-> ->].
    exists kvs1, ch, true, w1, e1, [Stdout failure_message].
    rewrite Hw, Eb. repeat split; auto.
  - destruct H as [-> ->].
    exists kvs1, ch, false, w1, e1, [].
    rewrite Hw, Eb. repeat split; auto. apply Hfin. now rewrite app_nil_r.
  - destruct H as (rs & w3 & Hget3 & -> & ->).
    apply get_releases_inv in Hget3 as (? & _ & _ & [F3 (e3 & T3 & P3)]).
    exists kvs1, ch, false, w1, e1,
      (e3 ++ map (fun x => Stdout (release_line x)) rs)%list.
    rewrite Hw, Eb. repeat split; auto.
    + apply Hfin. simpl. now rewrite T3, <- app_assoc.
    + transitivity (fs w2); [exact F3 | exact F2].
    + apply Forall_app. split; [exact P3 |].
      apply Forall_Stdout. intros; exact I.
Qed.

End Orchestrator.

Lemma truthy_not_falsy_key (kvs : dict) (k : string) (v : option string) :
  NoDup (dict_keys kvs) -> dict_get k kvs = Some v -> truthy v = true ->
  ~ In k (falsy_keys kvs).
Proof.
  intros Hnd Hget Ht Hin. unfold falsy_keys in Hin.
  apply in_map_iff in Hin as ([k' v'] & Hk & Hin). simpl in Hk. subst k'.
  apply filter_In in Hin as [Hin Hf]. simpl in Hf.
  rewrite (dict_get_In _ _ _ Hnd Hin) in Hget. injection Hget as ->.
  rewrite Ht in Hf. discriminate.
Qed.

Lemma lookup_event_no_search (names : list string) (k : string) (evs : list event) :
  ~ In k names -> Forall (lookup_event names) evs ->
  ~ In (HttpGet (search_uri k)) evs.
Proof.
  intros Hk Hall Hin. rewrite Forall_forall in Hall.
  apply list_elem_of_In, Hall in Hin. simpl in Hin.
  destruct Hin as (k' & Hk' & E). apply search_uri_inj in E. congruence.
Qed.

Lemma lookup_event_no_artist (names : list string) (art_id : option string)
    (evs : list event) :
  Forall (lookup_event names) evs -> ~ In (HttpGet (artist_uri art_id)) evs.
Proof.
  intros Hall Hin. rewrite Forall_forall in Hall.
  apply list_elem_of_In, Hall in Hin. simpl in Hin.
  destruct Hin as (k' & _ & E). symmetry in E.
  now apply search_uri_not_artist_uri in E.
Qed.

Lemma fetch_event_no_search (k : string) (evs : list event) :
  Forall fetch_event evs -> ~ In (HttpGet (search_uri k)) evs.
Proof.
  intros Hall Hin. rewrite Forall_forall in Hall.
  apply list_elem_of_In, Hall in Hin. simpl in Hin.
  destruct Hin as (art_id & E). now apply search_uri_not_artist_uri in E.
Qed.

(** Whatever the catalog and the cache: once [--ids] is given, no finished
    run has requested an artist document. *)
Lemma ids_given_never_fetches (cat : catalog) fuel a w r w' art_id :
  list_truthy (ids a) = true ->
  main cat fuel a w = Some (r, w') ->
  ~ In (HttpGet (artist_uri art_id)) (new_events w w').
Proof.
  intros Hids H. apply main_inv in H as [(_ & -> & _)|H].
  - unfold new_events. rewrite drop_all. intros [].
  - apply run_trace in H
      as (kvs1 & ch & fl & w1 & e1 & e3 & _ & _ & P1 & _ & -> & _ & H3).
    rewrite Hids in H3. rewrite !in_app_iff. intros [Hin|[Hin|Hin]].
    + now apply (lookup_event_no_artist _ art_id e1 P1).
    + destruct (written ch a w); [destruct Hin as [[=]|[]] | destruct Hin].
    + destruct (blocked ch a w); [destruct H3 as [_ ->]; destruct Hin |].
      destruct fl; destruct H3 as [_ ->]; [destruct Hin as [[=]|[]] | destruct Hin].
Qed.

(** C9. In a working set (a dict: no key twice), an entry that already
    holds an identifier is stable under [lookup]: whenever [lookup]
    finishes, the entry still has the same value, and no request for that
    name went to the catalog. *)
Theorem lookup_keeps_resolved (cat : catalog) (fuel : nat) (kvs : dict)
    (w : world) (k ident : string) r w' :
  NoDup (dict_keys kvs) ->
  dict_get k kvs = Some (Some ident) -> ident <> "" ->
  lookup cat fuel kvs w = Some (r, w') ->
  exists kvs' changed failure,
    r = Done (kvs', changed, failure) /\
    dict_get k kvs' = Some (Some ident) /\
    ~ In (HttpGet (search_uri k)) (new_events w w').
Proof.
  intros Hnd Hget Hne H.
  assert (Hk : ~ In k (falsy_keys kvs)).
  { apply (truthy_not_falsy_key kvs k (Some ident)); auto.
    simpl. now destruct (String.eqb_spec ident ""). }
  apply lookup_items_inv in H as (kvs' & ch & fl & -> & St & Hsame).
  exists kvs', ch, fl. split; [reflexivity |]. split.
  - now rewrite Hsame.
  - apply steps_new_events in St. now apply (lookup_event_no_search (falsy_keys kvs)).
Qed.

Lemma lookup_keeps_resolved_witness :
  exists kvs' changed failure w',
    lookup Demo.cat 2 [("Artist A", Some "id-123"); ("Artist B", None)] (Demo.start ∅)
      = Some (Done (kvs', changed, failure), w') /\
    dict_get "Artist A" kvs' = Some (Some "id-123") /\
    ~ In (HttpGet (search_uri "Artist A")) (new_events (Demo.start ∅) w').
Proof.
  destruct (lookup Demo.cat 2 [("Artist A", Some "id-123"); ("Artist B", None)]
              (Demo.start ∅)) as [[r w']|] eqn:E; [| vm_compute in E; discriminate].
  destruct (lookup_keeps_resolved Demo.cat 2
              [("Artist A", Some "id-123"); ("Artist B", None)] (Demo.start ∅)
              "Artist A" "id-123" r w') as (kvs' & ch & fl & -> & Hget & Hno).
  - simpl. apply NoDup_cons. split; [| apply NoDup_singleton].
    intros Hin. apply list_elem_of_singleton in Hin. discriminate.
  - reflexivity.
  - discriminate.
  - exact E.
  - exists kvs', ch, fl, w'. auto.
Defined.

Lemma none_for_get (names : list string) (k : string) :
  In k names -> dict_get k (none_for names) = Some None.
Proof.
  unfold none_for.
  assert (H : forall acc, In k names \/ dict_get k acc = Some None ->
            dict_get k (fold_left (fun acc k => dict_set k None acc) names acc)
              = Some None).
  { induction names as [|n names IH]; intros acc [Hin|Hacc]; simpl.
    - destruct Hin.
    - exact Hacc.
    - apply IH. destruct Hin as [->|Hin]; [right; apply dict_get_set_eq | now left].
    - apply IH. right. destruct (String.eqb_spec k n) as [->|Hne].
      + apply dict_get_set_eq.
      + now rewrite dict_get_set_ne. }
  intros Hin. apply H. now left.
Qed.

Lemma seed_get (a : args) (k : string) :
  In k (default [] (artists a)) -> dict_get k (seed a) = Some None.
Proof.
  intros Hin. unfold seed. destruct (artists a) as [[|n names]|]; try destruct Hin.
  - cbn [list_truthy default].
    rewrite (dict_get_update k None).
    + reflexivity.
    + apply none_for_NoDup.
    + apply dict_get_Some_In, none_for_get. now left.
  - cbn [list_truthy default].
    rewrite (dict_get_update k None).
    + reflexivity.
    + apply none_for_NoDup.
    + apply dict_get_Some_In, none_for_get. now right.
Qed.

Lemma run_no_search (cat : catalog) fuel a kvs w r w' (k : string) :
  ~ In k (falsy_keys kvs) ->
  run cat fuel a kvs w = Some (r, w') ->
  ~ In (HttpGet (search_uri k)) (new_events w w').
Proof.
  intros Hk H.
  apply run_trace in H
    as (kvs1 & ch & fl & w1 & e1 & e3 & _ & _ & P1 & _ & -> & _ & H3).
  rewrite !in_app_iff. intros [Hin|[Hin|Hin]].
  - now apply (lookup_event_no_search _ _ _ Hk P1).
  - destruct (written ch a w); [destruct Hin as [[=]|[]] | destruct Hin].
  - destruct (blocked ch a w); [destruct H3 as [_ ->]; destruct Hin |].
    destruct fl; [| destruct (list_truthy (ids a))].
    + destruct H3 as [_ ->]. destruct Hin as [[=]|[]].
    + destruct H3 as [_ ->]. destruct Hin.
    + destruct H3 as [_ P3]. now apply (fetch_event_no_search k e3).
Qed.

(** C10. A name given by [--artists] that is also a key of the cache file
    gets the file's value in the working set, not the unresolved seed: the
    file is merged after the seeds.  If that value is an identifier, no
    run of [main] asks the catalog about the name. *)
Theorem cache_value_takes_precedence (cat : catalog) (fuel : nat) (a : args)
    (w : world) (p : string) (j : dict) (k : string) (v : option string) :
  json a = Some p -> p <> "" ->
  fs w !! p = Some (Mapping j) -> NoDup (dict_keys j) ->
  In k (default [] (artists a)) ->
  In (k, v) j ->
  dict_get k (seed a) = Some None /\
  load_cache a (seed a) w = Some (Done (dict_update (seed a) j), w) /\
  dict_get k (dict_update (seed a) j) = Some v /\
  (truthy v = true ->
   forall r w', main cat fuel a w = Some (r, w') ->
     ~ In (HttpGet (search_uri k)) (new_events w w')).
Proof.
  intros Hjson Hp Hfile Hnd Hart Hin.
  assert (Htr : truthy (json a) = true).
  { rewrite Hjson. simpl. now destruct (String.eqb_spec p ""). }
  assert (Hload : load_cache a (seed a) w = Some (Done (dict_update (seed a) j), w)).
  { rewrite load_cache_run, Htr, Hjson. simpl. now rewrite Hfile. }
  assert (Hget : dict_get k (dict_update (seed a) j) = Some v)
    by now apply dict_get_update.
  split; [now apply seed_get |]. split; [exact Hload |]. split; [exact Hget |].
  intros Hv r w' H.
  apply main_inv in H as [(_ & -> & _)|H].
  - unfold new_events. rewrite drop_all. intros [].
  - unfold working_set in H. rewrite Hload in H.
    eapply run_no_search; [| exact H].
    apply (truthy_not_falsy_key _ k v); auto.
    apply dict_update_NoDup, seed_NoDup.
Qed.

Lemma cache_value_takes_precedence_witness :
  dict_get "Artist A" (seed cached_args) = Some None /\
  dict_get "Artist A" (working_set cached_args (Demo.start cached_files))
    = Some (Some "id-123") /\
  exists w', main Demo.cat 2 cached_args (Demo.start cached_files) = Some (Done tt, w') /\
    ~ In (HttpGet (search_uri "Artist A")) (new_events (Demo.start cached_files) w').
Proof.
  destruct (cache_value_takes_precedence Demo.cat 2 cached_args
              (Demo.start cached_files) "artists.json"
              [("Artist A", Some "id-123")] "Artist A" (Some "id-123"))
    as (Hseed & Hload & Hget & Hno).
  - reflexivity.
  - discriminate.
  - reflexivity.
  - simpl. apply NoDup_singleton.
  - simpl. now left.
  - simpl. now left.
  - split; [exact Hseed |]. split; [reflexivity |].
    destruct (main Demo.cat 2 cached_args (Demo.start cached_files))
      as [[r w']|] eqn:E; [| vm_compute in E; discriminate].
    assert (Hr : r = Done tt) by (vm_compute in E; now injection E as <- _).
    subst r. exists w'. split; [reflexivity |]. now apply (Hno eq_refl (Done tt)).
Defined.

Lemma existsb_resolves db (kvs : dict) :
  existsb (resolves db) kvs = true <->
  exists k v, In (k, v) kvs /\ truthy v = false /\ length (candidates db k) = 1.
Proof.
  rewrite existsb_exists. unfold resolves. split.
  - intros ([k v] & Hin & H). apply andb_true_iff in H as [H1 H2]. simpl in *.
    exists k, v. split; [exact Hin |]. split.
    + now destruct (truthy v).
    + now apply Nat.eqb_eq.
  - intros (k & v & Hin & Hv & Hl). exists (k, v). split; [exact Hin |]. simpl.
    rewrite Hv, Hl. reflexivity.
Qed.

Lemma existsb_fails db (kvs : dict) :
  existsb (fails db) kvs = true <->
  exists k v, In (k, v) kvs /\ truthy v = false /\ length (candidates db k) <> 1.
Proof.
  rewrite existsb_exists. unfold fails. split.
  - intros ([k v] & Hin & H). apply andb_true_iff in H as [H1 H2]. simpl in *.
    exists k, v. split; [exact Hin |]. split.
    + now destruct (truthy v).
    + apply negb_true_iff in H2. now apply Nat.eqb_neq.
  - intros (k & v & Hin & Hv & Hl). exists (k, v). split; [exact Hin |]. simpl.
    rewrite Hv. apply Nat.eqb_neq in Hl. now rewrite Hl.
Qed.

Lemma resolve_items_keep db items kvs ch fl k m :
  candidates db k = [m] ->
  dict_get k kvs = Some (Some (a_id (c_artist m))) ->
  dict_get k (fst (fst (resolve_items db items kvs ch fl)))
    = Some (Some (a_id (c_artist m))).
Proof.
  intros Hm. revert kvs ch fl.
  induction items as [|[k0 v0] rest IH]; intros kvs ch fl Hget; [exact Hget |].
  cbn [resolve_items]. destruct (truthy v0); [now apply IH |].
  destruct (candidates db k0) as [|m0 [|m1 ms]] eqn:E0; try now apply IH.
  apply IH. destruct (String.eqb_spec k k0) as [<-|Hne].
  - rewrite Hm in E0. injection E0 as <-. apply dict_get_set_eq.
  - now rewrite dict_get_set_ne.
Qed.

Lemma resolve_items_set db items kvs ch fl k v m :
  In (k, v) items -> truthy v = false -> candidates db k = [m] ->
  dict_get k (fst (fst (resolve_items db items kvs ch fl)))
    = Some (Some (a_id (c_artist m))).
Proof.
  intros Hin Hv Hm. revert kvs ch fl.
  induction items as [|[k0 v0] rest IH]; intros kvs ch fl; [destruct Hin |].
  destruct Hin as [[= -> ->]|Hin].
  - cbn [resolve_items]. rewrite Hv, Hm.
    apply resolve_items_keep; [exact Hm | apply dict_get_set_eq].
  - cbn [resolve_items]. destruct (truthy v0); [now apply IH |].
    destruct (candidates db k0) as [|m0 [|m1 ms]]; now apply IH.
Qed.

Lemma candidates_id_nonempty db (k : string) (m : candidate) :
  ids_nonempty db -> In m (candidates db k) -> a_id (c_artist m) <> "".
Proof.
  intros Hids Hin. unfold candidates in Hin.
  apply in_map_iff in Hin as (a & <- & Ha). rewrite c_artist_with_dispname.
  apply filter_In in Ha as [Ha _]. now apply (Hids (search_uri k)).
Qed.

Section Finishing.

Variable cat : catalog.




End Finishing.




Section Aborting.

Variable cat : catalog.




End Aborting.





(** A run that has loaded its working set raises only the exception of
    line 132, or that of [open] at line 123 when the directory of the
    cache path is missing. *)
Lemma run_raises (cat : catalog) fuel a kvs w e w' :
  run cat fuel a kvs w = Some (Raise e, w') ->
  e = AttributeError "artist_ids" \/
  (e = FileNotFoundError /\ no_directory w (PyStr.str (json a)) = true).
Proof.
  intros H. apply run_inv in H as (kvs1 & ch & fl & w1 & Hres & H).
  apply resolution_inv in Hres as (? & ? & ? & _ & [F1 _] & _).
  destruct (blocked ch a w1) eqn:Eb.
  - destruct H as [[= ->] _]. right. split; [reflexivity |].
    unfold blocked in Eb. apply andb_true_iff in Eb as [_ Eb].
    now rewrite <- (no_directory_fs w w1 _ F1).
  - cbv zeta in H. destruct fl; [destruct H as [[=] _] |].
    destruct (list_truthy (ids a)); [destruct H as [[= ->] _]; now left |].
    destruct H as (? & ? & _ & [=] & _).
Qed.

(** C8. With a cache path whose file does not exist (be it that only the
    file, or that its directory is missing), loading raises nothing: the
    working set is exactly the [--artists] seeds, as it is when the file
    holds the empty mapping, and the run goes on from there.  The run
    never ends in a decoding error, and it ends in [FileNotFoundError]
    only if the directory is missing, which then comes from writing the
    cache and not from loading it. *)
Theorem missing_cache_is_empty_cache (cat : catalog) (fuel : nat) (a : args)
    (w : world) (p : string) :
  json a = Some p -> p <> "" ->
  fs w !! p = None \/ fs w !! p = Some NoDirectory ->
  load_cache a (seed a) w = Some (Done (seed a), w) /\
  main cat fuel a w = run cat fuel a (seed a) w /\
  (forall w0, fs w0 !! p = Some (Mapping []) ->
     load_cache a (seed a) w0 = Some (Done (seed a), w0) /\
     main cat fuel a w0 = run cat fuel a (seed a) w0) /\
  (forall r w', main cat fuel a w = Some (r, w') ->
     r <> Raise JSONDecodeError /\
     (r = Raise FileNotFoundError ->
      fs w !! p = Some NoDirectory /\
      exists kvs1 fl, resolution cat fuel (seed a) w
                        = Some (Done (kvs1, true, fl), w'))).
Proof.
  intros Hjson Hp Hfile.
  assert (Htr : truthy (json a) = true).
  { rewrite Hjson. simpl. now destruct (String.eqb_spec p ""). }
  assert (Hload : load_cache a (seed a) w = Some (Done (seed a), w)).
  { rewrite load_cache_run, Htr, Hjson. simpl. now destruct Hfile as [-> | ->]. }
  assert (Hmain : main cat fuel a w = run cat fuel a (seed a) w).
  { unfold main, bind. now rewrite Hload. }
  split; [exact Hload |]. split; [exact Hmain |]. split.
  - intros w0 Hfile0.
    assert (Hload0 : load_cache a (seed a) w0 = Some (Done (seed a), w0)).
    { rewrite load_cache_run, Htr, Hjson. simpl. now rewrite Hfile0. }
    split; [exact Hload0 |]. unfold main, bind. now rewrite Hload0.
  - intros r w' H. rewrite Hmain in H. split.
    + intros ->. apply run_raises in H as [[=]|[[=] _]].
    + intros ->. apply run_inv in H as (kvs1 & ch & fl & w1 & Hres & H).
      pose proof Hres as Hinv.
      apply resolution_inv in Hinv as (? & ? & ? & _ & [F1 _] & _).
      destruct (blocked ch a w1) eqn:Eb.
      * destruct H as [_ ->]. unfold blocked in Eb.
        apply andb_true_iff in Eb as [Eb Hno].
        apply andb_true_iff in Eb as [-> _]. split; [| eauto].
        unfold no_directory in Hno. rewrite Hjson, F1 in Hno. simpl in Hno.
        now destruct (fs w !! p) as [[j| |]|].
      * cbv zeta in H. destruct fl; [destruct H as [[=] _] |].
        destruct (list_truthy (ids a)); [destruct H as [[=] _] |].
        destruct H as (? & ? & _ & [=] & _).
Qed.

Lemma missing_cache_is_empty_cache_witness :
  load_cache nodir_args (seed nodir_args) (Demo.start nodir_files)
    = Some (Done [("Artist B", None)], Demo.start nodir_files) /\
  main Demo.cat 2 nodir_args (Demo.start nodir_files)
    = run Demo.cat 2 nodir_args [("Artist B", None)] (Demo.start nodir_files).
Proof.
  destruct (missing_cache_is_empty_cache Demo.cat 2 nodir_args
              (Demo.start nodir_files) "nodir/artists.json") as (Hload & Hmain & _).
  - reflexivity.
  - discriminate.
  - right. reflexivity.
  - split; [exact Hload | exact Hmain].
Defined.

(** * Further properties of the program *)

(** ** Query encoding *)

Lemma list_ascii_of_append (s t : string) :
  list_ascii_of_string (s +:+ t)
    = (list_ascii_of_string s ++ list_ascii_of_string t)%list.
Proof.
  induction s as [|c s IH]; [reflexivity |].
  change (String c s +:+ t) with (String c (s +:+ t)). simpl. now rewrite IH.
Qed.

Lemma quote_byte_url_safe (c : ascii) :
  forallb url_safe (list_ascii_of_string (PyStr.quote_byte c)) = true.
Proof. destruct c as [[] [] [] [] [] [] [] []]; reflexivity. Qed.

(** X1. The query encoding loses nothing: decoding an encoded name gives
    the name back, so two names share a search address only if they are
    the same name. *)
Theorem quote_plus_round_trip :
  (forall s, PyStr.unquote_plus (PyStr.quote_plus s) = s) /\
  (forall k1 k2, search_uri k1 = search_uri k2 <-> k1 = k2).
Proof.
  split.
  - intros s. rewrite <- (append_nil_r (PyStr.quote_plus s)).
    rewrite unquote_quote_plus. apply append_nil_r.
  - intros k1 k2. split; [apply search_uri_inj | now intros ->].
Qed.

(** X2. Every byte of an encoded name is a letter, a digit, one of
    [_ . - ~], a [+] or a [%]: the name can neither end the query
    parameter nor start another one. *)
Theorem quote_plus_url_safe (s : string) :
  Forall (fun c => url_safe c = true) (list_ascii_of_string (PyStr.quote_plus s)) /\
  ~ In " "%char (list_ascii_of_string (PyStr.quote_plus s)) /\
  ~ In "&"%char (list_ascii_of_string (PyStr.quote_plus s)) /\
  ~ In "="%char (list_ascii_of_string (PyStr.quote_plus s)) /\
  ~ In "#"%char (list_ascii_of_string (PyStr.quote_plus s)).
Proof.
  assert (H : Forall (fun c => url_safe c = true)
                (list_ascii_of_string (PyStr.quote_plus s))).
  { induction s as [|c s IH]; [constructor |].
    change (PyStr.quote_plus (String c s))
      with (PyStr.quote_byte c +:+ PyStr.quote_plus s).
    rewrite list_ascii_of_append. apply Forall_app. split; [| exact IH].
    apply Forall_forall. intros x Hx. apply list_elem_of_In in Hx.
    pose proof (quote_byte_url_safe c) as Hc.
    rewrite forallb_forall in Hc. now apply Hc. }
  split; [exact H |].
  rewrite Forall_forall in H.
  repeat split; intros Hin; apply list_elem_of_In, H in Hin; discriminate.
Qed.

(** ** The retry loops *)

Lemma flat_map_seq_S {A} (f : nat -> list A) (a n : nat) :
  flat_map f (seq (S a) n) = flat_map (fun i => f (S i)) (seq a n).
Proof.
  revert a. induction n as [|n IH]; intros a; [reflexivity |].
  cbn [seq flat_map]. now rewrite IH.
Qed.

Section Retrying.

Variable cat : catalog.

Lemma search_page_retries (n : nat) :
  forall fuel name w,
    (forall i, i < n ->
       status_code (search_endpoint cat (tick w + i) (search_uri name)) <> 200%Z) ->
    status_code (search_endpoint cat (tick w + n) (search_uri name)) = 200%Z ->
    n < fuel ->
    search_page cat fuel name w =
      Some (Done (search_endpoint cat (tick w + n) (search_uri name)),
            {| tick := tick w + n + 1; fs := fs w;
               trace := trace w ++
                 retry_events (search_endpoint cat)
                   ("Querying MusicBrainz for artist=" +:+ name) (search_uri name)
                   (tick w) n |}).
Proof.
  assert (Hshift : forall w name i,
            failed_round ("Querying MusicBrainz for artist=" +:+ name) (search_uri name)
              (status_code (search_endpoint cat (tick w + S i) (search_uri name)))
            = failed_round ("Querying MusicBrainz for artist=" +:+ name) (search_uri name)
                (status_code (search_endpoint cat (S (tick w) + i) (search_uri name)))).
  { intros w name i. now replace (tick w + S i) with (S (tick w) + i) by lia. }
  induction n as [|n IH]; intros fuel name w Hbad Hok Hfuel;
    (destruct fuel as [|fuel]; [lia |]); cbn [search_page];
    cbn [bind logging_info logging_warning time_sleep act requests_get emit tick].
  - rewrite Nat.add_0_r in Hok. rewrite Hok. cbn [Z.eqb Pos.eqb ret].
    unfold next_tick, retry_events. cbn [tick fs trace emit seq flat_map app].
    rewrite !Nat.add_0_r, Nat.add_1_r, <- app_assoc. reflexivity.
  - pose proof (Hbad 0 ltac:(lia)) as H0. rewrite Nat.add_0_r in H0.
    apply Z.eqb_neq in H0. rewrite H0.
    cbn [bind logging_warning time_sleep act].
    rewrite IH; [| | | lia].
    + cbn [tick fs trace emit next_tick]. do 2 f_equal.
      * f_equal. f_equal; lia.
      * f_equal; [lia |].
        unfold retry_events. cbn [seq flat_map]. rewrite flat_map_seq_S, Nat.add_0_r.
        rewrite (flat_map_ext _ _ (Hshift w name)).
        unfold failed_round at 2. rewrite <- !app_assoc. reflexivity.
    + intros i Hi. cbn [tick emit next_tick].
      replace (S (tick w) + i) with (tick w + S i) by lia. apply Hbad. lia.
    + cbn [tick emit next_tick].
      now replace (S (tick w) + n) with (tick w + S n) by lia.
Qed.

Lemma artist_page_of_retries (n : nat) :
  forall fuel art_id w,
    (forall i, i < n ->
       status_code (artist_endpoint cat (tick w + i) (artist_uri art_id)) <> 200%Z) ->
    status_code (artist_endpoint cat (tick w + n) (artist_uri art_id)) = 200%Z ->
    n < fuel ->
    artist_page_of cat fuel art_id w =
      Some (Done (artist_endpoint cat (tick w + n) (artist_uri art_id)),
            {| tick := tick w + n + 1; fs := fs w;
               trace := trace w ++
                 retry_events (artist_endpoint cat)
                   ("Querying MusicBrainz for artist_id:" +:+ PyStr.str art_id)
                   (artist_uri art_id) (tick w) n |}).
Proof.
  assert (Hshift : forall w art_id i,
            failed_round ("Querying MusicBrainz for artist_id:" +:+ PyStr.str art_id)
              (artist_uri art_id)
              (status_code (artist_endpoint cat (tick w + S i) (artist_uri art_id)))
            = failed_round ("Querying MusicBrainz for artist_id:" +:+ PyStr.str art_id)
                (artist_uri art_id)
                (status_code (artist_endpoint cat (S (tick w) + i) (artist_uri art_id)))).
  { intros w art_id i. now replace (tick w + S i) with (S (tick w) + i) by lia. }
  induction n as [|n IH]; intros fuel art_id w Hbad Hok Hfuel;
    (destruct fuel as [|fuel]; [lia |]); cbn [artist_page_of];
    cbn [bind logging_info logging_warning time_sleep act requests_get emit tick].
  - rewrite Nat.add_0_r in Hok. rewrite Hok. cbn [Z.eqb Pos.eqb ret].
    unfold next_tick, retry_events. cbn [tick fs trace emit seq flat_map app].
    rewrite !Nat.add_0_r, Nat.add_1_r, <- app_assoc. reflexivity.
  - pose proof (Hbad 0 ltac:(lia)) as H0. rewrite Nat.add_0_r in H0.
    apply Z.eqb_neq in H0. rewrite H0.
    cbn [bind logging_warning time_sleep act].
    rewrite IH; [| | | lia].
    + cbn [tick fs trace emit next_tick]. do 2 f_equal.
      * f_equal. f_equal; lia.
      * f_equal; [lia |].
        unfold retry_events. cbn [seq flat_map]. rewrite flat_map_seq_S, Nat.add_0_r.
        rewrite (flat_map_ext _ _ (Hshift w art_id)).
        unfold failed_round at 2. rewrite <- !app_assoc. reflexivity.
    + intros i Hi. cbn [tick emit next_tick].
      replace (S (tick w) + i) with (tick w + S i) by lia. apply Hbad. lia.
    + cbn [tick emit next_tick].
      now replace (S (tick w) + n) with (tick w + S n) by lia.
Qed.

Lemma search_page_waits fuel name w :
  (forall t, status_code (search_endpoint cat t (search_uri name)) <> 200%Z) ->
  search_page cat fuel name w = None.
Proof.
  intros Hbad. revert w. induction fuel as [|fuel IH]; intros w; [reflexivity |].
  cbn [search_page].
  cbn [bind logging_info logging_warning time_sleep act requests_get emit tick].
  pose proof (Hbad (tick w)) as H0. apply Z.eqb_neq in H0. rewrite H0.
  cbn [bind logging_warning time_sleep act]. apply IH.
Qed.

Lemma artist_page_of_waits fuel art_id w :
  (forall t, status_code (artist_endpoint cat t (artist_uri art_id)) <> 200%Z) ->
  artist_page_of cat fuel art_id w = None.
Proof.
  intros Hbad. revert w. induction fuel as [|fuel IH]; intros w; [reflexivity |].
  cbn [artist_page_of].
  cbn [bind logging_info logging_warning time_sleep act requests_get emit tick].
  pose proof (Hbad (tick w)) as H0. apply Z.eqb_neq in H0. rewrite H0.
  cbn [bind logging_warning time_sleep act]. apply IH.
Qed.

End Retrying.

Lemma retry_events_counts {B} (endpoint : nat -> string -> response B)
    (info uri : string) (t n : nat) :
  length (requested (retry_events endpoint info uri t n)) = S n /\
  length (List.filter (fun e => match e with Sleep _ => true | _ => false end)
            (retry_events endpoint info uri t n)) = n /\
  Forall (fun u => u = uri) (requested (retry_events endpoint info uri t n)).
Proof.
  unfold retry_events. generalize (length_seq n 0). generalize (seq 0 n) as l.
  intros l <-. induction l as [|i l (IH1 & IH2 & IH3)].
  - repeat split. simpl. repeat constructor.
  - cbn [flat_map]. rewrite <- app_assoc.
    rewrite requested_app, List.filter_app, !length_app, IH1, IH2.
    repeat split. apply Forall_app. split; [| exact IH3].
    repeat constructor.
Qed.

(** X3. If the catalog turns a search away [n] times and then answers,
    [search_artist] returns the matches of that answer after exactly
    [n + 1] requests, all for the search address of the name: each refusal
    is logged as a warning and followed by a sleep of five seconds, nothing
    else happens, and the file system is untouched. *)
Theorem search_artist_retries (cat : catalog) (n fuel : nat) (name : string)
    (w : world) :
  (forall i, i < n ->
     status_code (search_endpoint cat (tick w + i) (search_uri name)) <> 200%Z) ->
  status_code (search_endpoint cat (tick w + n) (search_uri name)) = 200%Z ->
  n < fuel ->
  exists w',
    search_artist cat fuel name w =
      Some (Done (map with_dispname
                    (List.filter (is_match name)
                       (default [] (content (search_endpoint cat (tick w + n)
                                               (search_uri name)))))), w') /\
    tick w' = tick w + n + 1 /\ fs w' = fs w /\
    new_events w w' =
      retry_events (search_endpoint cat) ("Querying MusicBrainz for artist=" +:+ name)
        (search_uri name) (tick w) n /\
    length (requested (new_events w w')) = S n /\
    length (List.filter (fun e => match e with Sleep _ => true | _ => false end)
              (new_events w w')) = n.
Proof.
  intros Hbad Hok Hfuel.
  pose proof (search_page_retries cat n fuel name w Hbad Hok Hfuel) as Hrun.
  set (w' := {| tick := tick w + n + 1 |}) in Hrun.
  assert (Hnew : new_events w w' =
            retry_events (search_endpoint cat)
              ("Querying MusicBrainz for artist=" +:+ name) (search_uri name) (tick w) n).
  { now apply new_events_app. }
  exists w'. split; [| split; [| split; [| split; [| split]]]]; try reflexivity.
  - unfold search_artist, bind. rewrite Hrun. unfold ret.
    now rewrite collect_matches_spec.
  - exact Hnew.
  - rewrite Hnew. apply retry_events_counts.
  - rewrite Hnew. apply retry_events_counts.
Qed.

Lemma search_artist_retries_witness :
  exists w',
    search_artist Demo.cat 2 "Twin" (Demo.start ∅)
      = Some (Done (map with_dispname [Demo.twin_1; Demo.twin_2]), w') /\
    tick w' = 2 /\
    length (requested (new_events (Demo.start ∅) w')) = 2.
Proof.
  destruct (search_artist_retries Demo.cat 1 2 "Twin" (Demo.start ∅))
    as (w' & Hrun & Htick & _ & _ & Hreq & _).
  - intros i Hi. replace i with 0 by lia. simpl. discriminate.
  - reflexivity.
  - lia.
  - exists w'. split; [exact Hrun |]. split; [exact Htick | exact Hreq].
Defined.

(** X4. While the catalog keeps refusing, [search_artist] neither returns
    nor raises: however many attempts it is granted, it is still waiting
    for the next one. *)
Theorem search_artist_never_gives_up (cat : catalog) (name : string) :
  (forall t, status_code (search_endpoint cat t (search_uri name)) <> 200%Z) ->
  forall fuel w, search_artist cat fuel name w = None.
Proof.
  intros Hbad fuel w. unfold search_artist, bind.
  now rewrite search_page_waits.
Qed.

Lemma search_artist_never_gives_up_witness :
  search_artist unavailable 1000 "Artist B" (Demo.start ∅) = None.
Proof.
  apply (search_artist_never_gives_up unavailable "Artist B").
  intros t. simpl. discriminate.
Defined.

(** X5. If the catalog turns the request for an artist away [n] times and
    then answers, [get_releases_artist] returns the release groups of that
    answer in their order, each pointing back to the artist document it
    came with, after exactly [n + 1] requests for that artist's address;
    nothing is printed and the file system is untouched. *)
Theorem get_releases_artist_retries (cat : catalog) (n fuel : nat)
    (art_id : option string) (w : world) :
  (forall i, i < n ->
     status_code (artist_endpoint cat (tick w + i) (artist_uri art_id)) <> 200%Z) ->
  status_code (artist_endpoint cat (tick w + n) (artist_uri art_id)) = 200%Z ->
  n < fuel ->
  let j := content (artist_endpoint cat (tick w + n) (artist_uri art_id)) in
  exists rs w',
    get_releases_artist cat fuel art_id w = Some (Done rs, w') /\
    map r_group rs = ap_release_groups j /\
    Forall (fun r => ai_name (r_artist r) = ap_name j) rs /\
    tick w' = tick w + n + 1 /\ fs w' = fs w /\
    new_events w w' =
      retry_events (artist_endpoint cat)
        ("Querying MusicBrainz for artist_id:" +:+ PyStr.str art_id)
        (artist_uri art_id) (tick w) n /\
    length (requested (new_events w w')) = S n.
Proof.
  intros Hbad Hok Hfuel j.
  pose proof (artist_page_of_retries cat n fuel art_id w Hbad Hok Hfuel) as Hrun.
  set (w' := {| tick := tick w + n + 1 |}) in Hrun.
  assert (Hnew : new_events w w' =
            retry_events (artist_endpoint cat)
              ("Querying MusicBrainz for artist_id:" +:+ PyStr.str art_id)
              (artist_uri art_id) (tick w) n).
  { now apply new_events_app. }
  eexists. exists w'.
  split; [| split; [| split; [| split; [| split; [| split]]]]]; try reflexivity.
  - unfold get_releases_artist, bind. rewrite Hrun. reflexivity.
  - fold j. rewrite map_map. simpl. apply map_id.
  - fold j. apply Forall_forall. intros r Hr.
    apply list_elem_of_In, in_map_iff in Hr as (rg & <- & _). reflexivity.
  - exact Hnew.
  - rewrite Hnew. apply retry_events_counts.
Qed.

Lemma get_releases_artist_retries_witness :
  exists rs w',
    get_releases_artist Demo.cat 2 (Some "id-b") (Demo.start ∅) = Some (Done rs, w') /\
    map (fun r => title (r_group r)) rs = ["First"; "Early"; "Second"] /\
    length (requested (new_events (Demo.start ∅) w')) = 2.
Proof.
  destruct (get_releases_artist_retries Demo.cat 1 2 (Some "id-b") (Demo.start ∅))
    as (rs & w' & Hrun & Hgroups & _ & _ & _ & _ & Hreq).
  - intros i Hi. replace i with 0 by lia. simpl. discriminate.
  - reflexivity.
  - lia.
  - exists rs, w'. split; [exact Hrun |]. split; [| exact Hreq].
    rewrite <- (map_map r_group title), Hgroups. reflexivity.
Defined.

(** ** Resolution of the working set *)

Lemma requested_Stdout {A} (f : A -> string) (l : list A) :
  requested (map (fun x => Stdout (f x)) l) = [].
Proof. induction l as [|x l IH]; [reflexivity | exact IH]. Qed.

Lemma dict_set_keys_present (k : string) (v : option string) (d : dict) :
  In k (dict_keys d) -> dict_keys (dict_set k v d) = dict_keys d.
Proof.
  intros Hin. rewrite dict_keys_set.
  destruct (dict_get k d) eqn:E; [reflexivity |].
  apply dict_get_None in E. contradiction.
Qed.

Section Resolving.

Variable cat : catalog.

Lemma lookup_items_keys fuel items kvs ch fl w kvs' ch' fl' w' :
  (forall kv, In kv items -> In (fst kv) (dict_keys kvs)) ->
  lookup_items cat fuel items kvs ch fl w = Some (Done (kvs', ch', fl'), w') ->
  dict_keys kvs' = dict_keys kvs.
Proof.
  revert kvs ch fl w. induction items as [|[k v] rest IH]; intros kvs ch fl w Hin H.
  - now injection H as <- _ _ _.
  - assert (Hrest : forall kv, In kv rest -> In (fst kv) (dict_keys kvs)).
    { intros kv Hkv. apply Hin. now right. }
    cbn [lookup_items] in H. destruct (truthy v); [now apply IH in H |].
    run_in H.
    apply bind_Some in H as [(e & _ & [=])|(ms & w1 & _ & H1)].
    destruct ms as [|m [|m' ms]]; run_in H1;
      rewrite ?bind_print_matches in H1; try (now apply IH in H1).
    assert (Hk : dict_keys (dict_set k (Some (a_id (c_artist m))) kvs) = dict_keys kvs).
    { apply dict_set_keys_present. apply (Hin (k, v)). now left. }
    apply IH in H1; [congruence |]. intros kv Hkv. rewrite Hk. now apply Hrest.
Qed.

Lemma search_page_requests fuel name w r w' :
  search_page cat fuel name w = Some (r, w') ->
  exists evs n,
    trace w' = (trace w ++ evs)%list /\
    requested evs = replicate (S n) (search_uri name).
Proof.
  revert w r w'. induction fuel as [|fuel IH]; intros w r w' H; [discriminate |].
  cbn [search_page] in H. run_in H.
  set (info := LogInfo _) in H. set (get := HttpGet _) in H.
  destruct (status_code _ =? 200)%Z.
  - injection H as _ <-. exists [info; get], 0. split; [| reflexivity].
    simpl. now rewrite <- app_assoc.
  - run_in H. set (warn := LogWarning _) in H.
    apply IH in H as (evs & n & T & Hreq).
    exists (info :: get :: warn :: Sleep 5 :: evs), (S n). split.
    + rewrite T. simpl. now rewrite <- !app_assoc.
    + change (requested (info :: get :: warn :: Sleep 5 :: evs))
        with (search_uri name :: requested evs).
      now rewrite Hreq.
Qed.

Lemma lookup_items_requests fuel items kvs ch fl w r w' :
  lookup_items cat fuel items kvs ch fl w = Some (r, w') ->
  exists evs retries,
    trace w' = (trace w ++ evs)%list /\
    length retries = length (falsy_keys items) /\
    requested evs =
      concat (zip_with (fun k n => replicate (S n) (search_uri k))
                (falsy_keys items) retries).
Proof.
  revert kvs ch fl w. induction items as [|[k v] rest IH]; intros kvs ch fl w H.
  - injection H as _ <-. exists [], []. now rewrite app_nil_r.
  - cbn [lookup_items] in H. unfold falsy_keys. cbn [List.filter snd].
    destruct (truthy v); cbn [negb map fst]; [now apply IH in H |].
    fold (falsy_keys rest). run_in H.
    apply bind_Some in H as [(e & H & _)|(ms & w1 & H & H1)].
    { apply search_artist_inv in H as (? & _ & [=] & _). }
    unfold search_artist in H.
    apply bind_Some in H as [(e & _ & [=])|(page & w2 & H & H2)].
    injection H2 as _ <-.
    apply search_page_requests in H as (e1 & n & T1 & R1). simpl in T1.
    assert (Hfin : forall prints e2 ns,
              requested prints = [] ->
              trace w' = (((trace w2 ++ prints) ++ e2))%list ->
              length ns = length (falsy_keys rest) ->
              requested e2 =
                concat (zip_with (fun k n => replicate (S n) (search_uri k))
                          (falsy_keys rest) ns) ->
              exists evs retries,
                trace w' = (trace w ++ evs)%list /\
                length retries = length (k :: falsy_keys rest) /\
                requested evs =
                  concat (zip_with (fun k n => replicate (S n) (search_uri k))
                            (k :: falsy_keys rest) retries)).
    { intros prints e2 ns Hp T2 Hlen R2.
      exists (Stdout ("Lookup on " +:+ k) :: e1 ++ prints ++ e2)%list, (n :: ns).
      split; [| split].
      - rewrite T2, T1, <- !app_assoc. reflexivity.
      - simpl. now rewrite Hlen.
      - change (requested (Stdout ("Lookup on " +:+ k) :: e1 ++ prints ++ e2))
          with (requested (e1 ++ prints ++ e2)).
        rewrite !requested_app, R1, Hp, R2. reflexivity. }
    destruct ms as [|m [|m' ms]]; run_in H1; rewrite ?bind_print_matches in H1;
      apply IH in H1 as (e2 & ns & T2 & Hlen & R2).
    + apply (Hfin [Stdout "Found multiple candidates, please select manually:"] e2 ns);
        auto.
      rewrite T2. simpl. now rewrite app_nil_r.
    + apply (Hfin [Stdout "Found Artist match with high confidence:";
                   Stdout (match_line m)] e2 ns); auto.
      rewrite T2. simpl. now rewrite <- !app_assoc.
    + apply (Hfin (Stdout "Found multiple candidates, please select manually:"
                   :: map (fun x => Stdout (match_line x)) (m :: m' :: ms)) e2 ns); auto.
      * change (requested (Stdout "Found multiple candidates, please select manually:"
                           :: map (fun x => Stdout (match_line x)) (m :: m' :: ms)))
          with (requested (map (fun x => Stdout (match_line x)) (m :: m' :: ms))).
        apply requested_Stdout.
      * rewrite T2. simpl. now rewrite <- !app_assoc.
Qed.

End Resolving.

(** X6. [lookup] never adds, removes or reorders entries: whenever it
    finishes, the working set has the keys it started with, in the same
    order. *)
Theorem lookup_preserves_keys (cat : catalog) (fuel : nat) (kvs : dict)
    (w : world) kvs' changed failure w' :
  lookup cat fuel kvs w = Some (Done (kvs', changed, failure), w') ->
  dict_keys kvs' = dict_keys kvs /\ length kvs' = length kvs.
Proof.
  intros H. unfold lookup in H. apply lookup_items_keys in H.
  - split; [exact H |]. apply (f_equal (@length string)) in H.
    unfold dict_keys in H. now rewrite !length_map in H.
  - intros kv Hkv. unfold dict_keys. now apply in_map.
Qed.

Lemma lookup_preserves_keys_witness :
  exists kvs' changed failure w',
    lookup Demo.cat 2 mixed_working_set (Demo.start ∅)
      = Some (Done (kvs', changed, failure), w') /\
    dict_keys kvs' = ["Artist A"; "Twin"; "Artist B"].
Proof.
  destruct (lookup Demo.cat 2 mixed_working_set (Demo.start ∅))
    as [[[[[kvs' ch] fl]|e] w']|] eqn:E;
    [| vm_compute in E; discriminate | vm_compute in E; discriminate].
  destruct (lookup_preserves_keys Demo.cat 2 mixed_working_set (Demo.start ∅)
              kvs' ch fl w' E) as [Hkeys _].
  exists kvs', ch, fl, w'. split; [reflexivity | exact Hkeys].
Defined.

(** X7. [lookup] asks the catalog about exactly the names whose entry has
    no identifier, one name after the other in the order of the working
    set, repeating a request only until it is answered; it asks about
    nothing else. *)
Theorem lookup_queries_unresolved_in_order (cat : catalog) (fuel : nat)
    (kvs : dict) (w : world) r w' :
  lookup cat fuel kvs w = Some (r, w') ->
  exists retries,
    length retries = length (falsy_keys kvs) /\
    requested (new_events w w') =
      concat (zip_with (fun k n => replicate (S n) (search_uri k))
                (falsy_keys kvs) retries).
Proof.
  intros H. unfold lookup in H.
  apply lookup_items_requests in H as (evs & retries & T & Hlen & Hreq).
  exists retries. split; [exact Hlen |]. now rewrite (new_events_app _ _ _ T).
Qed.

Lemma lookup_queries_unresolved_in_order_witness :
  exists r w',
    lookup Demo.cat 2 mixed_working_set (Demo.start ∅) = Some (r, w') /\
    requested (new_events (Demo.start ∅) w') =
      [search_uri "Twin"; search_uri "Twin"; search_uri "Artist B"].
Proof.
  destruct (lookup Demo.cat 2 mixed_working_set (Demo.start ∅))
    as [[r w']|] eqn:E; [| vm_compute in E; discriminate].
  destruct (lookup_queries_unresolved_in_order Demo.cat 2 mixed_working_set
              (Demo.start ∅) r w' E) as (retries & _ & _).
  exists r, w'. split; [reflexivity |].
  vm_compute in E. injection E as _ <-. reflexivity.
Defined.

(** ** Fetching *)

Lemma fetch_only_mono (ids ids' : list (option string)) (e : event) :
  (forall i, In i ids -> In i ids') -> fetch_only ids e -> fetch_only ids' e.
Proof.
  intros Hsub. destruct e; simpl; auto.
  intros (i & Hi & ->). exists i. auto.
Qed.

Section FetchingOnly.

Variable cat : catalog.

Lemma artist_page_of_only fuel art_id w r w' :
  artist_page_of cat fuel art_id w = Some (r, w') ->
  steps (fetch_only [art_id]) w w'.
Proof.
  revert w r. induction fuel as [|fuel IH]; intros w r H; [discriminate |].
  cbn [artist_page_of] in H. run_in H.
  assert (Hget : fetch_only [art_id] (HttpGet (artist_uri art_id))).
  { exists art_id. split; [now left | reflexivity]. }
  destruct (status_code _ =? 200)%Z.
  - injection H as _ <-. steps_chain.
  - run_in H. apply IH in H.
    eapply steps_trans; [| exact H]. steps_chain.
Qed.

Lemma fetch_all_only fuel artist_ids acc w r w' :
  fetch_all cat fuel artist_ids acc w = Some (r, w') ->
  steps (fetch_only artist_ids) w w'.
Proof.
  revert acc w. induction artist_ids as [|art_id rest IH]; intros acc w H.
  - injection H as _ <-. apply steps_refl.
  - cbn [fetch_all] in H.
    apply bind_Some in H as [(e & H & _)|(rs & w1 & H & H1)].
    { apply get_releases_artist_inv in H as (? & _ & [=] & _). }
    unfold get_releases_artist in H.
    apply bind_Some in H as [(e & _ & [=])|(page & w2 & H & H2)].
    injection H2 as _ <-.
    apply artist_page_of_only in H. apply IH in H1.
    eapply steps_trans.
    + eapply steps_weaken; [| exact H]. intros e. apply fetch_only_mono.
      intros i [->|[]]. now left.
    + eapply steps_weaken; [| exact H1]. intros e. apply fetch_only_mono.
      intros i Hi. now right.
Qed.

End FetchingOnly.

(** X8. [get_releases] only talks to the catalog: whenever it finishes,
    every request it made was for the document of one of the identifiers
    it was given, it printed nothing, and it left the file system as it
    was. *)
Theorem get_releases_only_fetches (cat : catalog) (fuel : nat)
    (artist_ids : list (option string)) (w : world) r w' :
  get_releases cat fuel artist_ids w = Some (r, w') ->
  fs w' = fs w /\
  (forall u, In (HttpGet u) (new_events w w') ->
     exists i, In i artist_ids /\ u = artist_uri i) /\
  (forall line, ~ In (Stdout line) (new_events w w')) /\
  (forall p d, ~ In (FileWrite p d) (new_events w w')).
Proof.
  intros H. apply get_releases_inv in H as (rs & H & _ & _).
  apply fetch_all_only in H. pose proof (steps_new_events _ _ _ H) as Hnew.
  rewrite Forall_forall in Hnew. split; [apply H |].
  split; [| split].
  - intros u Hin. now apply list_elem_of_In, Hnew in Hin.
  - intros line Hin. now apply list_elem_of_In, Hnew in Hin.
  - intros p d Hin. now apply list_elem_of_In, Hnew in Hin.
Qed.

Lemma get_releases_only_fetches_witness :
  exists r w',
    get_releases Demo.cat 2 [Some "id-b"; Some "id-123"] (Demo.start cached_files)
      = Some (r, w') /\
    fs w' = cached_files /\
    forall line, ~ In (Stdout line) (new_events (Demo.start cached_files) w').
Proof.
  destruct (get_releases Demo.cat 2 [Some "id-b"; Some "id-123"]
              (Demo.start cached_files)) as [[r w']|] eqn:E;
    [| vm_compute in E; discriminate].
  destruct (get_releases_only_fetches Demo.cat 2 [Some "id-b"; Some "id-123"]
              (Demo.start cached_files) r w' E) as (Hfs & _ & Hout & _).
  exists r, w'. split; [reflexivity |]. split; [exact Hfs | exact Hout].
Defined.

(** ** Resolution against a catalog with fixed documents *)

Lemma dict_set_middle (k : string) (v v0 : option string) (pre rest : dict) :
  ~ In k (dict_keys pre) ->
  dict_set k v (pre ++ (k, v0) :: rest)%list = (pre ++ (k, v) :: rest)%list.
Proof.
  induction pre as [|[k' v'] pre IH]; intros Hk; simpl.
  - now rewrite String.eqb_refl.
  - simpl in Hk. destruct (String.eqb_spec k k') as [->|Hne]; [tauto |].
    rewrite IH by tauto. reflexivity.
Qed.

Lemma resolve_items_map db items :
  forall pre ch fl,
    NoDup (dict_keys (pre ++ items)%list) ->
    fst (fst (resolve_items db items (pre ++ items)%list ch fl))
      = (pre ++ map (resolve_entry db) items)%list.
Proof.
  induction items as [|[k v] rest IH]; intros pre ch fl Hnd.
  - simpl. reflexivity.
  - assert (Hstep : forall v' ch' fl',
              fst (fst (resolve_items db rest (pre ++ (k, v') :: rest)%list ch' fl'))
                = (pre ++ (k, v') :: map (resolve_entry db) rest)%list).
    { intros v' ch' fl'.
      rewrite (cons_middle (k, v') pre rest), app_assoc, IH.
      - now rewrite <- app_assoc.
      - rewrite <- app_assoc. unfold dict_keys in *.
        rewrite map_app in *. exact Hnd. }
    assert (Hk : ~ In k (dict_keys pre)).
    { unfold dict_keys in Hnd. rewrite map_app in Hnd. cbn [map fst] in Hnd.
      apply NoDup_app in Hnd as (_ & Hdis & _). intros Hin.
      apply (Hdis k); [now apply list_elem_of_In | apply list_elem_of_here]. }
    cbn [resolve_items map]. unfold resolve_entry at 1. cbn [fst snd].
    destruct (truthy v); [apply Hstep |].
    destruct (candidates db k) as [|m [|m' ms]]; try apply Hstep.
    rewrite dict_set_middle by exact Hk. apply Hstep.
Qed.

Lemma lookup_items_all_truthy (cat : catalog) fuel items kvs ch fl w :
  Forall (fun kv => truthy (snd kv) = true) items ->
  lookup_items cat fuel items kvs ch fl w = Some (Done (kvs, ch, fl), w).
Proof.
  induction 1 as [|[k v] rest Hv _ IH]; [reflexivity |].
  cbn [lookup_items]. simpl in Hv. now rewrite Hv.
Qed.

(** X9. A failure does not stop resolution: whenever [lookup] finishes,
    every entry without identifier whose search kept exactly one candidate
    holds that candidate's identifier and the changed flag is set, whether
    or not other names failed. *)
Theorem lookup_settles_unique_matches (cat : catalog)
    (db : string -> option (list artist)) (fuel : nat) (kvs : dict) (w : world)
    kvs' changed failure w' (k : string) (v : option string) (m : candidate) :
  stable (search_endpoint cat) db ->
  lookup cat fuel kvs w = Some (Done (kvs', changed, failure), w') ->
  In (k, v) kvs -> truthy v = false -> candidates db k = [m] ->
  dict_get k kvs' = Some (Some (a_id (c_artist m))) /\ changed = true.
Proof.
  intros Hst H Hin Hv Hm. unfold lookup in H.
  apply (lookup_items_stable cat db) in H; [| exact Hst].
  injection H as H.
  pose proof (resolve_items_set db kvs kvs false false k v m Hin Hv Hm) as Hset.
  destruct (resolve_items_flags db kvs kvs false false) as [Hc _].
  rewrite <- H in Hset, Hc. simpl in Hset, Hc. split; [exact Hset |].
  rewrite Hc. apply existsb_resolves. exists k, v.
  split; [exact Hin |]. split; [exact Hv |]. now rewrite Hm.
Qed.

Lemma lookup_settles_unique_matches_witness :
  exists kvs' failure w',
    lookup Demo.cat 2 mixed_working_set (Demo.start ∅)
      = Some (Done (kvs', true, failure), w') /\
    failure = true /\
    dict_get "Artist B" kvs' = Some (Some "id-b").
Proof.
  destruct (lookup Demo.cat 2 mixed_working_set (Demo.start ∅))
    as [[[[[kvs' ch] fl]|e] w']|] eqn:E;
    [| vm_compute in E; discriminate | vm_compute in E; discriminate].
  destruct (lookup_settles_unique_matches Demo.cat Demo.search_db 2
              mixed_working_set (Demo.start ∅) kvs' ch fl w'
              "Artist B" (Some "") (with_dispname Demo.artist_b))
    as [Hget Hch].
  - exact demo_search_stable.
  - exact E.
  - simpl. auto.
  - reflexivity.
  - reflexivity.
  - subst ch. exists kvs', fl, w'. split; [reflexivity |]. split; [| exact Hget].
    vm_compute in E. now injection E as _ <- _.
Defined.

(** X10. Resolution is idempotent.  Against a catalog with fixed documents
    and non-empty identifiers, a [lookup] that finishes without failure
    leaves every entry with an identifier (each entry resolved on its
    own, in place); looking the result up again asks nothing, changes
    nothing, and reports neither change nor failure. *)
Theorem lookup_idempotent (cat : catalog) (db : string -> option (list artist))
    (fuel : nat) (kvs : dict) (w : world) kvs' changed w' :
  stable (search_endpoint cat) db -> ids_nonempty db ->
  NoDup (dict_keys kvs) ->
  lookup cat fuel kvs w = Some (Done (kvs', changed, false), w') ->
  kvs' = map (resolve_entry db) kvs /\
  Forall (fun kv => truthy (snd kv) = true) kvs' /\
  forall fuel2, lookup cat fuel2 kvs' w' = Some (Done (kvs', false, false), w').
Proof.
  intros Hst Hids Hnd H. unfold lookup in H.
  apply (lookup_items_stable cat db) in H; [| exact Hst].
  injection H as H.
  pose proof (resolve_items_map db kvs [] false false Hnd) as Hmap.
  destruct (resolve_items_flags db kvs kvs false false) as [_ Hf].
  simpl in Hmap. rewrite <- H in Hmap, Hf. simpl in Hmap, Hf.
  assert (Hall : Forall (fun kv => truthy (snd kv) = true) kvs').
  { rewrite Hmap. apply Forall_forall. intros kv' Hkv'.
    apply list_elem_of_In, in_map_iff in Hkv' as ([k v] & <- & Hkv).
    unfold resolve_entry. cbn [fst snd].
    destruct (truthy v) eqn:Ev; [exact Ev |].
    assert (Hone : length (candidates db k) = 1).
    { destruct (Nat.eq_dec (length (candidates db k)) 1) as [E|E]; [exact E |].
      assert (Hfail : existsb (fails db) kvs = true).
      { apply existsb_fails. exists k, v. auto. }
      rewrite Hfail in Hf. discriminate. }
    destruct (candidates db k) as [|m [|m' ms]] eqn:Ec; try discriminate.
    cbn [snd truthy].
    assert (Hne : a_id (c_artist m) <> "").
    { apply (candidates_id_nonempty db k m Hids). rewrite Ec. now left. }
    now destruct (String.eqb_spec (a_id (c_artist m)) ""). }
  split; [exact Hmap |]. split; [exact Hall |].
  intros fuel2. unfold lookup. now apply lookup_items_all_truthy.
Qed.

Lemma demo_ids_nonempty : ids_nonempty Demo.search_db.
Proof.
  intros uri a. unfold Demo.search_db.
  destruct (String.eqb uri (search_uri "Artist B")).
  - intros [<-|[<-|[]]]; discriminate.
  - destruct (String.eqb uri (search_uri "Twin")).
    + intros [<-|[<-|[<-|[]]]]; discriminate.
    + intros [].
Qed.

Lemma lookup_idempotent_witness :
  exists kvs' changed w',
    lookup Demo.cat 2 [("Artist A", Some "id-123"); ("Artist B", None)] (Demo.start ∅)
      = Some (Done (kvs', changed, false), w') /\
    kvs' = [("Artist A", Some "id-123"); ("Artist B", Some "id-b")] /\
    lookup Demo.cat 0 kvs' w' = Some (Done (kvs', false, false), w').
Proof.
  destruct (lookup Demo.cat 2 [("Artist A", Some "id-123"); ("Artist B", None)]
              (Demo.start ∅)) as [[[[[kvs' ch] fl]|e] w']|] eqn:E;
    [| vm_compute in E; discriminate | vm_compute in E; discriminate].
  assert (Hfl : fl = false) by (vm_compute in E; now injection E as _ _ <- _).
  subst fl.
  destruct (lookup_idempotent Demo.cat Demo.search_db 2
              [("Artist A", Some "id-123"); ("Artist B", None)] (Demo.start ∅)
              kvs' ch w') as (Hmap & _ & Hagain).
  - exact demo_search_stable.
  - exact demo_ids_nonempty.
  - simpl. apply NoDup_cons. split; [| apply NoDup_singleton].
    intros Hin. apply list_elem_of_singleton in Hin. discriminate.
  - exact E.
  - exists kvs', ch, w'. split; [reflexivity |]. split; [| apply Hagain].
    rewrite Hmap. reflexivity.
Defined.

(** ** The working set *)

Lemma dict_set_fresh (k : string) (v : option string) (d : dict) :
  ~ In k (dict_keys d) -> dict_set k v d = (d ++ [(k, v)])%list.
Proof.
  induction d as [|[k' v'] d IH]; intros Hk; simpl; [reflexivity |].
  simpl in Hk. destruct (String.eqb_spec k k') as [->|Hne]; [tauto |].
  rewrite IH by tauto. reflexivity.
Qed.

Lemma dict_update_app (other : dict) :
  forall d, NoDup (dict_keys (d ++ other)%list) -> dict_update d other = (d ++ other)%list.
Proof.
  unfold dict_update.
  induction other as [|[k v] other IH]; intros d Hnd; simpl.
  - now rewrite app_nil_r.
  - assert (Hk : ~ In k (dict_keys d)).
    { unfold dict_keys in Hnd. rewrite map_app in Hnd. cbn [map fst] in Hnd.
      apply NoDup_app in Hnd as (_ & Hdis & _). intros Hin.
      apply (Hdis k); [now apply list_elem_of_In | apply list_elem_of_here]. }
    rewrite (dict_set_fresh k v d Hk), IH.
    + now rewrite <- app_assoc.
    + now rewrite <- app_assoc.
Qed.

Lemma dict_set_In_inv (k k' : string) (v v' : option string) (d : dict) :
  In (k', v') (dict_set k v d) -> (k', v') = (k, v) \/ In (k', v') d.
Proof.
  induction d as [|[k0 v0] d IH]; simpl.
  - intros [E|[]]. now left.
  - destruct (String.eqb_spec k k0) as [->|Hne]; simpl.
    + intros [E|Hin]; auto.
    + intros [E|Hin]; auto. apply IH in Hin as [E|Hin]; auto.
Qed.

Lemma none_for_In (names : list string) (k : string) (v : option string) :
  In (k, v) (none_for names) -> In k names /\ v = None.
Proof.
  unfold none_for.
  assert (H : forall acc,
            (forall k v, In (k, v) acc -> In k names /\ v = None) ->
            forall l, (forall x, In x l -> In x names) ->
            In (k, v) (fold_left (fun acc k => dict_set k None acc) l acc) ->
            In k names /\ v = None).
  { intros acc Hacc l. revert acc Hacc.
    induction l as [|n l IH]; intros acc Hacc Hl Hin; simpl in Hin.
    - now apply Hacc.
    - apply (IH (dict_set n None acc)); auto.
      + intros k0 v0 H0. apply dict_set_In_inv in H0 as [[= -> ->]|H0].
        * split; [apply Hl; now left | reflexivity].
        * now apply Hacc.
      + intros x Hx. apply Hl. now right. }
  apply (H [] ltac:(intros ? ? []) names). auto.
Qed.

Lemma seed_none_for (a : args) : seed a = none_for (default [] (artists a)).
Proof.
  unfold seed. destruct (artists a) as [[|n names]|]; try reflexivity.
  cbn [list_truthy default]. apply (dict_update_app _ []). apply none_for_NoDup.
Qed.

(** X11. The seeds of the working set hold every name given by
    [--artists] exactly once, each without identifier, and nothing else: a
    name repeated on the command line is looked up once. *)
Theorem seed_entries (a : args) :
  NoDup (dict_keys (seed a)) /\
  (forall k, In k (dict_keys (seed a)) <-> In k (default [] (artists a))) /\
  (forall k v, In (k, v) (seed a) -> v = None).
Proof.
  split; [apply seed_NoDup |]. rewrite seed_none_for.
  split.
  - intros k. split.
    + intros Hin. unfold dict_keys in Hin.
      apply in_map_iff in Hin as ([k' v] & <- & Hin). now apply none_for_In in Hin.
    + intros Hin. apply none_for_get, dict_get_Some_In in Hin.
      unfold dict_keys. change k with (fst (k, @None string)). now apply in_map.
  - intros k v Hin. now apply none_for_In in Hin.
Qed.

Lemma dict_update_keys_prefix (other : dict) :
  forall d, exists added,
    dict_keys (dict_update d other) = (dict_keys d ++ added)%list /\
    forall k, In k added -> In k (dict_keys other) /\ ~ In k (dict_keys d).
Proof.
  unfold dict_update.
  induction other as [|[k v] other IH]; intros d; simpl.
  - exists []. split; [now rewrite app_nil_r | intros k []].
  - destruct (IH (dict_set k v d)) as (added & Hkeys & Hadded).
    rewrite dict_keys_set in Hkeys, Hadded.
    destruct (dict_get k d) eqn:E.
    + exists added. split; [exact Hkeys |].
      intros k' Hk'. apply Hadded in Hk' as [H1 H2]. auto.
    + apply dict_get_None in E.
      exists (k :: added). split.
      * rewrite Hkeys, <- app_assoc. reflexivity.
      * intros k' [<-|Hk']; [auto |].
        apply Hadded in Hk' as [H1 H2]. split; [auto |].
        intros Hin. apply H2, in_app_iff. now left.
Qed.

(** X12. Merging the cache file keeps the command-line names first, in
    their order, and appends the names only the file knows; a name the
    file does not mention keeps its seed value, and a name the file
    mentions gets the file's value. *)
Theorem working_set_merge (a : args) (w : world) (p : string) (j : dict) :
  json a = Some p -> p <> "" ->
  fs w !! p = Some (Mapping j) -> NoDup (dict_keys j) ->
  (exists added,
     dict_keys (working_set a w) = (dict_keys (seed a) ++ added)%list /\
     forall k, In k added -> In k (dict_keys j) /\ ~ In k (dict_keys (seed a))) /\
  (forall k, dict_get k (working_set a w) =
             match dict_get k j with
             | Some v => Some v
             | None => dict_get k (seed a)
             end).
Proof.
  intros Hjson Hp Hfile Hnd.
  assert (Hws : working_set a w = dict_update (seed a) j).
  { unfold working_set. rewrite load_cache_run, Hjson. simpl.
    destruct (String.eqb_spec p ""); [contradiction |]. simpl. now rewrite Hfile. }
  rewrite Hws. split; [apply dict_update_keys_prefix |].
  intros k. destruct (dict_get k j) as [v|] eqn:E.
  - apply dict_get_update; [exact Hnd | now apply dict_get_Some_In].
  - apply dict_get_update_other. now apply dict_get_None.
Qed.

Lemma working_set_merge_witness :
  dict_keys (working_set cached_args (Demo.start cached_files))
    = ["Artist A"; "Artist B"] /\
  dict_get "Artist B" (working_set cached_args (Demo.start cached_files)) = Some None.
Proof.
  destruct (working_set_merge cached_args (Demo.start cached_files) "artists.json"
              [("Artist A", Some "id-123")]) as [_ Hget].
  - reflexivity.
  - discriminate.
  - reflexivity.
  - simpl. apply NoDup_singleton.
  - split; [reflexivity |]. rewrite Hget. reflexivity.
Defined.

(** X13. A cache file that is not valid JSON stops the run at once: [main]
    ends in the decoder's exception before any name is looked up, with
    nothing printed, requested or written. *)
Theorem malformed_cache_raises (cat : catalog) (fuel : nat) (a : args)
    (w : world) (p : string) :
  json a = Some p -> p <> "" -> fs w !! p = Some Malformed ->
  main cat fuel a w = Some (Raise JSONDecodeError, w).
Proof.
  intros Hjson Hp Hfile. unfold main, bind. rewrite load_cache_run, Hjson. simpl.
  destruct (String.eqb_spec p ""); [contradiction |]. simpl. now rewrite Hfile.
Qed.

Lemma malformed_cache_raises_witness :
  main Demo.cat 0 cached_args (Demo.start {[ "artists.json" := Malformed ]})
    = Some (Raise JSONDecodeError, Demo.start {[ "artists.json" := Malformed ]}).
Proof.
  apply (malformed_cache_raises Demo.cat 0 cached_args _ "artists.json").
  - reflexivity.
  - discriminate.
  - reflexivity.
Defined.

(** ** Whole runs *)

Section Succeeding.

Variable cat : catalog.



End Succeeding.

(** X14. With nothing to do, [main] does nothing: when the working set is
    empty and no [--ids] are given, it returns at once, whatever the
    catalog, without a request, a line of output or a write. *)
Theorem empty_run_is_silent (cat : catalog) (fuel : nat) (a : args) (w : world) :
  load_cache a (seed a) w = Some (Done [], w) ->
  list_truthy (ids a) = false ->
  main cat fuel a w = Some (Done tt, w).
Proof.
  intros Hload Hids. unfold main, bind. rewrite Hload.
  unfold run. cbn [dict_truthy bind ret andb]. rewrite Hids. reflexivity.
Qed.

Lemma empty_run_is_silent_witness :
  main unavailable 0
    {| ids := None; artists := None; json := Some "artists.json"; verbose := true |}
    (Demo.start ∅)
  = Some (Done tt, Demo.start ∅).
Proof.
  apply empty_run_is_silent; reflexivity.
Defined.



(** ** What resolution shows the user *)

Section Showing.

Variable cat : catalog.
Variable db : string -> option (list artist).
Hypothesis Hstable : stable (search_endpoint cat) db.

Lemma lookup_items_prints fuel items kvs ch fl w r w' (k : string)
    (v : option string) (m : candidate) :
  lookup_items cat fuel items kvs ch fl w = Some (r, w') ->
  In (k, v) items -> truthy v = false -> In m (candidates db k) ->
  In (Stdout (match_line m)) (new_events w w').
Proof.
  revert kvs ch fl w.
  induction items as [|[k0 v0] rest IH]; intros kvs ch fl w H Hin Hv Hm;
    [destruct Hin |].
  cbn [lookup_items] in H. destruct (truthy v0) eqn:E0.
  { destruct Hin as [[= -> ->]|Hin]; [congruence |]. now apply (IH kvs ch fl w). }
  run_in H.
  apply bind_Some in H as [(e & H & _)|(ms & w1 & H & H1)];
    apply search_artist_inv in H as (t & Ht & Hr & [_ (e1 & T1 & _)]); [discriminate |].
  injection Hr as ->. rewrite (Hstable _ _ Ht) in H1. fold (candidates db k0) in H1.
  simpl in T1.
  assert (Hfin : forall prints wp,
            trace wp = (trace w1 ++ prints)%list ->
            (forall x, In x (candidates db k0) -> In (Stdout (match_line x)) prints) ->
            (exists kvs2 ch2 fl2,
               lookup_items cat fuel rest kvs2 ch2 fl2 wp = Some (r, w')) ->
            In (Stdout (match_line m)) (new_events w w')).
  { intros prints wp Tp Hprints (kvs2 & ch2 & fl2 & Hrest).
    pose proof Hrest as Hrest0.
    apply lookup_items_inv in Hrest0 as (? & ? & ? & _ & [_ (e2 & T2 & _)] & _).
    assert (Hnew : new_events w w'
                   = (Stdout ("Lookup on " +:+ k0) :: e1 ++ prints ++ e2)%list).
    { apply new_events_app. rewrite T2, Tp, T1, <- !app_assoc. reflexivity. }
    rewrite Hnew. right. rewrite !in_app_iff.
    destruct Hin as [[= -> ->]|Hin].
    - right. left. now apply Hprints.
    - right. right. rewrite <- (new_events_app wp w' e2 T2).
      now apply (IH kvs2 ch2 fl2 wp). }
  destruct (candidates db k0) as [|m0 [|m1 ms]] eqn:Ec; run_in H1;
    rewrite ?bind_print_matches in H1.
  - apply (Hfin [Stdout "Found multiple candidates, please select manually:"]
             (emit_all (map (fun x => Stdout (match_line x)) [])
                (emit (Stdout "Found multiple candidates, please select manually:") w1))).
    + simpl. now rewrite app_nil_r.
    + intros x [].
    + eauto.
  - apply (Hfin [Stdout "Found Artist match with high confidence:";
                 Stdout (match_line m0)]
             (emit (Stdout (match_line m0))
                (emit (Stdout "Found Artist match with high confidence:") w1))).
    + simpl. now rewrite <- app_assoc.
    + intros x [<-|[]]. right. now left.
    + eauto.
  - apply (Hfin (Stdout "Found multiple candidates, please select manually:"
                 :: map (fun x => Stdout (match_line x)) (m0 :: m1 :: ms))
             (emit_all (map (fun x => Stdout (match_line x)) (m0 :: m1 :: ms))
                (emit (Stdout "Found multiple candidates, please select manually:") w1))).
    + simpl. now rewrite <- !app_assoc.
    + intros x Hx. right. now apply (in_map (fun x => Stdout (match_line x))).
    + eauto.
Qed.

End Showing.

(** X17. Every candidate found for a name without identifier is shown:
    whenever [lookup] finishes, its output has, for each candidate the
    search kept, a line with the display name, the score as a percentage
    in parentheses, and the identifier, be the name settled or not. *)
Theorem lookup_shows_candidates (cat : catalog)
    (db : string -> option (list artist)) (fuel : nat) (kvs : dict) (w : world)
    r w' (k : string) (v : option string) (m : candidate) :
  stable (search_endpoint cat) db ->
  lookup cat fuel kvs w = Some (r, w') ->
  In (k, v) kvs -> truthy v = false -> In m (candidates db k) ->
  In (Stdout (dispname m +:+ " (" +:+ PyStr.format_d (a_score (c_artist m)) +:+ "%) "
              +:+ a_id (c_artist m)))
     (new_events w w').
Proof.
  intros Hst H Hin Hv Hm. unfold lookup in H.
  exact (lookup_items_prints cat db Hst fuel kvs kvs false false w r w' k v m
           H Hin Hv Hm).
Qed.

Lemma lookup_shows_candidates_witness :
  exists r w',
    lookup Demo.cat 2 mixed_working_set (Demo.start ∅) = Some (r, w') /\
    In (Stdout "Twin (97%) id-t2") (new_events (Demo.start ∅) w').
Proof.
  destruct (lookup Demo.cat 2 mixed_working_set (Demo.start ∅))
    as [[r w']|] eqn:E; [| vm_compute in E; discriminate].
  exists r, w'. split; [reflexivity |].
  apply (lookup_shows_candidates Demo.cat Demo.search_db 2 mixed_working_set
           (Demo.start ∅) r w' "Twin" None (with_dispname Demo.twin_2)).
  - exact demo_search_stable.
  - exact E.
  - simpl. auto.
  - reflexivity.
  - vm_compute. auto.
Defined.


